(** * LockStack: the per-thread lightweight-locking stack of HotSpot

    A shallow embedding of [src/hotspot/share/runtime/lockStack.cpp].

    Conventions of the embedding:
    - C++ [int] and [uint32_t] values are integers of [Z]; the conversion
      [static_cast<uint32_t>] is written out as a reduction modulo 2^32.
    - An [oop] is the address of an object, [nullptr] is address 0.
    - [assert(p, msg)] of a checked (ASSERT) build aborts the VM; a function
      that contains asserts returns a [result], [Fatal msg] standing for the
      abort with the message of the failed assert.  Messages are the format
      strings of the source (PTR_FORMAT written [%p]), numbers not filled
      in; the [%s] of [verify] is filled in with its argument.
    - Declarations of [lockStack.hpp], [lockStack.inline.hpp] and of the
      collaborating classes are not part of the translation unit; constants
      are fields of [Layout], collaborators are fields of [Runtime]. *)

From Stdlib Require Import ZArith List Bool String Lia.
Import ListNotations.
Local Open Scope string_scope.
Local Open Scope Z_scope.

(** ** Fatal errors *)

Inductive result (A : Type) : Type :=
| Ok (a : A)
| Fatal (msg : string).
Arguments Ok {A} a.
Arguments Fatal {A} msg.

Definition bind {A B : Type} (r : result A) (k : A -> result B) : result B :=
  match r with
  | Ok a => k a
  | Fatal msg => Fatal msg
  end.

Notation "x <- c ;; k" := (bind c (fun x => k))
  (at level 61, c at next level, right associativity).
Notation "c ;;; k" := (bind c (fun _ => k))
  (at level 61, right associativity).

(** [assert(p, msg)]; [dbg] tells whether the build defines ASSERT. *)
Definition assert_in (dbg : bool) (p : bool) (msg : string) : result unit :=
  if dbg then (if p then Ok tt else Fatal msg) else Ok tt.

(** [assert] inside code that only exists in checked builds. *)
Definition assert (p : bool) (msg : string) : result unit :=
  assert_in true p msg.

(** ** Machine integers *)

Definition to_u32 (x : Z) : Z := x mod 2 ^ 32.

Definition INT_MAX : Z := 2 ^ 31 - 1.

(** ** Object references *)

Definition oop : Type := Z.
Definition nullptr : oop := 0.

(** ** Constants of the headers *)

Record Layout : Type := mkLayout {
  (** [in_bytes(JavaThread::lock_stack_base_offset())] *)
  lock_stack_base_offset : Z;
  (** [LockStack::CAPACITY] *)
  CAPACITY : Z;
  (** [oopSize], the size of an object reference in bytes *)
  oopSize : Z;
  (** value of [_bad_oop_sentinel] *)
  badOopVal : Z;
  (** [sizeof(_bad_oop_sentinel)] *)
  sizeof_bad_oop_sentinel : Z;
  (** [sizeof(_base[0])] *)
  sizeof_base_elem : Z;
  (** [std::is_standard_layout<LockStack>::value] *)
  is_standard_layout : bool;
  (** [offsetof(LockStack, _bad_oop_sentinel)] *)
  offsetof_bad_oop_sentinel : Z;
  (** [offsetof(LockStack, _base)] *)
  offsetof_base : Z
}.

(** ** The ledger *)

Record LockStack : Type := mkLockStack {
  _top : Z;                (* uint32_t, a byte offset in the JavaThread *)
  _bad_oop_sentinel : Z;   (* the word in front of _base *)
  _base : list oop         (* oop _base[CAPACITY] *)
}.

(** [_base[i]].  Every read of the source is guarded so that [0 <= i].  The
    word in front of the array, at index [-1], is the sentinel.  Reads past
    the end of the array (and below index [-1]) are undefined in the source;
    past the end the model yields [nullptr]. *)
Definition base_at (ls : LockStack) (i : Z) : oop :=
  if i <? 0 then _bad_oop_sentinel ls
  else nth (Z.to_nat i) (_base ls) nullptr.

(** [_base[i] = v] *)
Fixpoint list_set (l : list oop) (n : nat) (v : oop) : list oop :=
  match l, n with
  | [], _ => []
  | _ :: t, O => v :: t
  | h :: t, S k => h :: list_set t k v
  end.

Definition base_set (ls : LockStack) (i : Z) (v : oop) : LockStack :=
  if i <? 0 then ls
  else mkLockStack (_top ls) (_bad_oop_sentinel ls)
                   (list_set (_base ls) (Z.to_nat i) v).

(** ** Collaborators

    The classes the file calls into without defining them: the object
    header ([oopDesc], [markWord]), [ObjectMonitor], [JavaThread],
    [SafepointSynchronize], [VM_Version] and the global [LockingMode].
    Mark words, monitor pointers and thread pointers are machine words. *)

Record Runtime : Type := mkRuntime {
  LockingMode : Z;
  LM_LIGHTWEIGHT : Z;
  (** [SafepointSynchronize::is_at_safepoint()] *)
  is_at_safepoint : bool;
  (** [Thread::current()] *)
  Thread_current : Z;
  (** [Thread::current()->is_Java_thread()] *)
  is_Java_thread : bool;
  (** [get_thread()], the thread this ledger belongs to *)
  get_thread : Z;
  (** [VM_Version::supports_recursive_lightweight_locking()] *)
  supports_recursive_lightweight_locking : bool;
  (** [obj->mark_acquire()] *)
  mark_acquire : oop -> Z;
  (** [obj->is_locked()] *)
  is_locked : oop -> bool;
  (** [mark.is_fast_locked()] *)
  is_fast_locked : Z -> bool;
  (** [mark.monitor()] *)
  monitor : Z -> Z;
  (** [m->is_owner_anonymous()] *)
  is_owner_anonymous : Z -> bool;
  (** [m->is_owner(thread)] *)
  is_owner : Z -> Z -> bool;
  (** [thread->current_waiting_monitor()] *)
  current_waiting_monitor : Z -> Z;
  (** [oopDesc::is_oop(o)] *)
  is_oop : oop -> bool
}.

(** ** Output stream: the calls made on an [outputStream], oldest first *)

Inductive out_event : Type :=
| ev_print (fmt : string) (arg : Z)       (* st->print(fmt, arg) *)
| ev_print_cr (fmt : string) (arg : Z)    (* st->print_cr(fmt, arg) *)
| ev_oop_print_on (o : oop).              (* o->print_on(st) *)

Definition outputStream : Type := list out_event.

Definition emit (st : outputStream) (e : out_event) : outputStream :=
  (st ++ [e])%list.

Section Model.

Variable L : Layout.
Variable rt : Runtime.

(** ** Offsets *)

(** [uint32_t LockStack::start_offset()] *)
Definition start_offset (dbg : bool) : result Z :=
  let offset := lock_stack_base_offset L in
  assert_in dbg (0 <? offset) "must be positive offset" ;;;
  Ok (to_u32 offset).

(** [uint32_t LockStack::end_offset()].  The sum is computed in [int],
    where an overflow is undefined; the statements about it assume that it
    fits. *)
Definition end_offset (dbg : bool) : result Z :=
  let offset := lock_stack_base_offset L + CAPACITY L * oopSize L in
  assert_in dbg (0 <? offset) "must be positive offset" ;;;
  Ok (to_u32 offset).

(** Modelled from the spec: [to_index] of [lockStack.inline.hpp], the pure
    arithmetic [index = (offset - start_offset) / slot_size], with the
    truncating division of C++. *)
Definition to_index (offset : Z) : Z :=
  Z.quot (offset - to_u32 (lock_stack_base_offset L)) (oopSize L).

(** Modelled from the spec: [is_owning_thread] of [lockStack.inline.hpp],
    true iff called by the thread that owns this ledger. *)
Definition is_owning_thread : bool :=
  Thread_current rt =? get_thread rt.

(** Modelled from the spec: [contains] of [lockStack.inline.hpp], a linear
    scan from [top - 1] down to [0] that tells whether the reference is
    present.  [k] is the number of entries still to visit, the entry looked
    at is [k - 1]. *)
Fixpoint contains_loop (ls : LockStack) (o : oop) (k : nat) : bool :=
  match k with
  | O => false
  | S i => if base_at ls (Z.of_nat i) =? o then true
           else contains_loop ls o i
  end.

(** Modelled from the spec: [contains] itself, the scan started at the
    top. *)
Definition contains (ls : LockStack) (o : oop) : bool :=
  contains_loop ls o (Z.to_nat (to_index (_top ls))).

(** ** Construction *)

(** The four STATIC_ASSERTs of the constructor.  They are evaluated when
    the class is compiled and have no effect on the object constructed. *)
Definition static_asserts : bool :=
  (sizeof_bad_oop_sentinel L =? oopSize L)
  && (sizeof_base_elem L =? oopSize L)
  && is_standard_layout L
  && (offsetof_bad_oop_sentinel L =? offsetof_base L - oopSize L).

(** [for (int i = 0; i < CAPACITY; i++) _base[i] = nullptr;] from [i] on. *)
Fixpoint zap_loop (fuel : nat) (ls : LockStack) (i : Z) : LockStack :=
  match fuel with
  | O => ls
  | S f => if i <? CAPACITY L
           then zap_loop f (base_set ls i nullptr) (i + 1)
           else ls
  end.

(** The state of the object after [_top(lock_stack_base_offset), _base()]:
    the array member is value-initialised. *)
Definition LockStack_init : LockStack :=
  mkLockStack (to_u32 (lock_stack_base_offset L)) (badOopVal L)
              (repeat nullptr (Z.to_nat (CAPACITY L))).

(** [LockStack::LockStack(JavaThread* jt)] *)
Definition LockStack_ctor (dbg : bool) (jt : Z) : LockStack :=
  if dbg then zap_loop (Z.to_nat (CAPACITY L)) LockStack_init 0
  else LockStack_init.

(** ** verify *)

(** [for (; i < top - 1; i++) { if (_base[i + 1] != o) break; }],
    the value of [i] after the loop. *)
Fixpoint skip_run (fuel : nat) (ls : LockStack) (o : oop) (i top : Z) : Z :=
  match fuel with
  | O => i
  | S f => if i <? top - 1
           then if negb (base_at ls (i + 1) =? o) then i
                else skip_run f ls o (i + 1) top
           else i
  end.

(** [for (int j = i + 1; j < top; j++) assert(_base[i] != _base[j], ...)]
    from [j] on. *)
Fixpoint unique_from (fuel : nat) (msg : string) (ls : LockStack)
                     (i j top : Z) : result unit :=
  match fuel with
  | O => Ok tt
  | S f => if j <? top
           then assert (negb (base_at ls i =? base_at ls j))
                       ("entries must be unique: " ++ msg) ;;;
                unique_from f msg ls i (j + 1) top
           else Ok tt
  end.

(** [for (int i = 0; i < top; i++) { ... }] from [i] on. *)
Fixpoint verify_live (fuel : nat) (msg : string) (ls : LockStack)
                     (i top : Z) : result unit :=
  match fuel with
  | O => Ok tt
  | S f =>
      if i <? top then
        assert (negb (base_at ls i =? nullptr)) "no zapped before top" ;;;
        let i1 :=
          if supports_recursive_lightweight_locking rt
          then skip_run (Z.to_nat (top - 1 - i)) ls (base_at ls i) i top
          else i in
        unique_from (Z.to_nat (top - (i1 + 1))) msg ls i1 (i1 + 1) top ;;;
        verify_live f msg ls (i1 + 1) top
      else Ok tt
  end.

(** [for (int i = top; i < CAPACITY; i++) assert(_base[i] == nullptr, ...)]
    from [i] on. *)
Fixpoint verify_zapped (fuel : nat) (ls : LockStack) (i : Z) : result unit :=
  match fuel with
  | O => Ok tt
  | S f => if i <? CAPACITY L
           then assert (base_at ls i =? nullptr)
                  "only zapped entries after top: i: %d, top: %d, entry: %p" ;;;
                verify_zapped f ls (i + 1)
           else Ok tt
  end.

(** The condition that gates the content checks of [verify]. *)
Definition may_inspect : bool :=
  is_at_safepoint rt || (is_Java_thread rt && is_owning_thread).

(** [void LockStack::verify(const char* msg) const] *)
Definition verify (msg : string) (ls : LockStack) : result unit :=
  assert (LockingMode rt =? LM_LIGHTWEIGHT rt)
    "never use lock-stack when light weight locking is disabled" ;;;
  e <- end_offset true ;;
  assert (_top ls <=? e) "lockstack overflow: _top %d end_offset %d" ;;;
  s <- start_offset true ;;
  assert (_top ls >=? s) "lockstack underflow: _top %d start_offset %d" ;;;
  if may_inspect then
    let top := to_index (_top ls) in
    verify_live (Z.to_nat top) msg ls 0 top ;;;
    verify_zapped (Z.to_nat (CAPACITY L - top)) ls top
  else Ok tt.

(** ** verify_consistent_lock_order *)

(** [lock_order.at(k)] *)
Definition at_ (lock_order : list oop) (k : nat) : oop :=
  nth k lock_order nullptr.

(** [for (int index = 0; index < top_index; index++)
       if (_base[index] == obj) { top_index = index + 1; break; }]
    from [index] on: the value of [top_index] after the loop. *)
Fixpoint find_top_index (fuel : nat) (ls : LockStack) (obj : oop)
                        (index top_index : Z) : Z :=
  match fuel with
  | O => top_index
  | S f => if index <? top_index
           then if base_at ls index =? obj then index + 1
                else find_top_index f ls obj (index + 1) top_index
           else top_index
  end.

(** [while (lock_index-- > 0 && lock_order.at(lock_index) == obj)
       top_index++;]
    with [k] the value of [lock_index] before the test: the value of
    [top_index] after the loop. *)
Fixpoint count_repeats (lock_order : list oop) (obj : oop) (k : nat)
                       (top_index : Z) : Z :=
  match k with
  | O => top_index
  | S k' => if at_ lock_order k' =? obj
            then count_repeats lock_order obj k' (top_index + 1)
            else top_index
  end.

(** The first [while (lock_index-- > 0) { ... }], with [k] the value of
    [lock_index] before the test: the value of [top_index] after it. *)
Fixpoint anchor_loop (ls : LockStack) (lock_order : list oop) (k : nat)
                     (top_index : Z) : result Z :=
  match k with
  | O => Ok top_index
  | S k' =>
      let obj := at_ lock_order k' in
      if contains ls obj then
        let t1 := find_top_index (Z.to_nat top_index) ls obj 0 top_index in
        if supports_recursive_lightweight_locking rt then
          let t2 := count_repeats lock_order obj k' t1 in
          assert (t2 <=? to_index (_top ls)) "too many obj in lock_order" ;;;
          Ok t2
        else Ok t1
      else anchor_loop ls lock_order k' top_index
  end.

(** Lines 108-139: the value of [top_index] when the second loop starts. *)
Definition anchor_window (ls : LockStack) (lock_order : list oop)
                         (leaf_frame : bool) : result Z :=
  let top_index := to_index (_top ls) in
  if negb leaf_frame
  then anchor_loop ls lock_order (List.length lock_order) top_index
  else Ok top_index.

(** The body of the second loop for one object: the new [top_index]. *)
Definition check_entry (ls : LockStack) (leaf_frame : bool) (obj : oop)
                       (top_index : Z) : result Z :=
  let mark := mark_acquire rt obj in
  assert (is_locked rt obj) "must be locked" ;;;
  if (0 <? top_index) && (obj =? base_at ls (top_index - 1)) then
    assert (is_fast_locked rt mark || is_owner_anonymous rt (monitor rt mark))
      "must be fast_locked or inflated by other thread" ;;;
    Ok (top_index - 1)
  else
    assert (negb (is_fast_locked rt mark)) "must be inflated" ;;;
    assert (is_owner rt (monitor rt mark) (get_thread rt)
            || (negb leaf_frame
                && (current_waiting_monitor rt (get_thread rt)
                    =? monitor rt mark)))
      "must be owned by (or waited on by) thread" ;;;
    assert (negb (contains ls obj)) "must not be on lock_stack" ;;;
    Ok top_index.

(** The second [while (lock_index-- > 0) { ... }], with [k] the value of
    [lock_index] before the test: the value of [top_index] after it. *)
Fixpoint scan_loop (ls : LockStack) (leaf_frame : bool)
                   (lock_order : list oop) (k : nat)
                   (top_index : Z) : result Z :=
  match k with
  | O => Ok top_index
  | S k' =>
      t <- check_entry ls leaf_frame (at_ lock_order k') top_index ;;
      scan_loop ls leaf_frame lock_order k' t
  end.

(** [void LockStack::verify_consistent_lock_order(GrowableArray<oop>&
    lock_order, bool leaf_frame) const] *)
Definition verify_consistent_lock_order (ls : LockStack)
    (lock_order : list oop) (leaf_frame : bool) : result unit :=
  top_index <- anchor_window ls lock_order leaf_frame ;;
  scan_loop ls leaf_frame lock_order (List.length lock_order) top_index ;;;
  Ok tt.

(** ** print_on *)

(** [for (int i = to_index(_top); (--i) >= 0;) { ... }] with [k] the value
    of [i] before the decrement.  The method is not [const]: the ledger is
    threaded through. *)
Fixpoint print_loop (k : nat) (ls : LockStack) (st : outputStream)
  : LockStack * outputStream :=
  match k with
  | O => (ls, st)
  | S i =>
      let st1 := emit st (ev_print "LockStack[%d]: " (Z.of_nat i)) in
      let o := base_at ls (Z.of_nat i) in
      let st2 := if is_oop rt o
                 then emit st1 (ev_oop_print_on o)
                 else emit st1 (ev_print_cr "not an oop: %p" o) in
      print_loop i ls st2
  end.

(** [void LockStack::print_on(outputStream* st)] *)
Definition print_on (ls : LockStack) (st : outputStream)
  : LockStack * outputStream :=
  print_loop (Z.to_nat (to_index (_top ls))) ls st.

End Model.

(** ** Properties of a ledger, as the specification words them *)

Section Wording.

Variable L : Layout.
Variable rt : Runtime.

(** The number of live entries, [n = index(top)]. *)
Definition depth (ls : LockStack) : Z := to_index L (_top ls).

(** The live entries, oldest first. *)
Definition live_entries (ls : LockStack) : list oop :=
  map (fun i => base_at ls (Z.of_nat i)) (seq 0 (Z.to_nat (depth ls))).

(** The top cursor lies in [[start_offset, end_offset]]. *)
Definition top_in_range (ls : LockStack) : Prop :=
  exists s e, start_offset L true = Ok s /\ end_offset L true = Ok e
              /\ s <= _top ls <= e.

(** Every slot below the top holds a reference. *)
Definition dense (ls : LockStack) : Prop :=
  forall i, 0 <= i < depth ls -> base_at ls i <> nullptr.

(** Every slot from the top on is empty. *)
Definition zapped (ls : LockStack) : Prop :=
  forall i, depth ls <= i < CAPACITY L -> base_at ls i = nullptr.

(** Two live positions hold the same reference only inside one run of
    adjacent equal entries, and only with recursive locking. *)
Definition unique_up_to_runs (ls : LockStack) : Prop :=
  forall p q, 0 <= p < q -> q < depth ls ->
    base_at ls p = base_at ls q ->
    supports_recursive_lightweight_locking rt = true
    /\ forall k, p <= k <= q -> base_at ls k = base_at ls p.

(** Density and uniqueness restricted to the slots from [i] up to [top]. *)
Definition dense_from (ls : LockStack) (i top : Z) : Prop :=
  forall p, i <= p < top -> base_at ls p <> nullptr.

Definition unique_from_to (ls : LockStack) (i top : Z) : Prop :=
  forall p q, i <= p < q -> q < top ->
    base_at ls p = base_at ls q ->
    supports_recursive_lightweight_locking rt = true
    /\ forall k, p <= k <= q -> base_at ls k = base_at ls p.

(** Index of the first occurrence of [o] in [l]. *)
Fixpoint position (o : oop) (l : list oop) : Z :=
  match l with
  | [] => 0
  | x :: t => if x =? o then 0 else 1 + position o t
  end.

(** Number of leading elements of [l] equal to [o]. *)
Fixpoint leading_repeats (o : oop) (l : list oop) : Z :=
  match l with
  | [] => 0
  | x :: t => if x =? o then 1 + leading_repeats o t else 0
  end.

(** The anchor of a non-leaf frame; [recent] is the true lock order, most
    recent acquisition first. *)
Fixpoint window_of_scan (ls : LockStack) (recent : list oop) : result Z :=
  match recent with
  | [] => Ok (depth ls)
  | o :: older =>
      if existsb (fun x => x =? o) (live_entries ls) then
        let p := position o (live_entries ls) in
        if supports_recursive_lightweight_locking rt then
          let w := p + 1 + leading_repeats o older in
          if w <=? depth ls then Ok w
          else Fatal "too many obj in lock_order"
        else Ok (p + 1)
      else window_of_scan ls older
  end.

(** The anchor window as section 4.4, step 1, words it. *)
Definition spec_window (ls : LockStack) (true_lock_order : list oop)
                       (is_leaf_frame : bool) : result Z :=
  if is_leaf_frame then Ok (depth ls)
  else window_of_scan ls (rev true_lock_order).

(** The second loop over a whole lock order. *)
Definition scan (ls : LockStack) (leaf_frame : bool) (lock_order : list oop)
                (top_index : Z) : result Z :=
  scan_loop L rt ls leaf_frame lock_order (List.length lock_order) top_index.

(** What the dump emits for the entry at index [i]. *)
Definition dump_entry (ls : LockStack) (i : nat) : list out_event :=
  let o := base_at ls (Z.of_nat i) in
  [ ev_print "LockStack[%d]: " (Z.of_nat i);
    if is_oop rt o then ev_oop_print_on o
    else ev_print_cr "not an oop: %p" o ].

(** The slots at the indices [lo], ..., [hi - 1], lowest index first. *)
Definition slots_between (ls : LockStack) (lo hi : Z) : list oop :=
  map (fun k => base_at ls (lo + Z.of_nat k)) (seq 0 (Z.to_nat (hi - lo))).

(** What the second loop demands of an object it finds in the last slot of
    the window. *)
Definition on_ledger_ok (o : oop) : Prop :=
  is_fast_locked rt (mark_acquire rt o) = true
  \/ is_owner_anonymous rt (monitor rt (mark_acquire rt o)) = true.

(** What the second loop demands of any other object, apart from its
    absence from the ledger. *)
Definition off_ledger_ok (leaf_frame : bool) (o : oop) : Prop :=
  is_fast_locked rt (mark_acquire rt o) = false
  /\ (is_owner rt (monitor rt (mark_acquire rt o)) (get_thread rt) = true
      \/ (leaf_frame = false
          /\ current_waiting_monitor rt (get_thread rt)
             = monitor rt (mark_acquire rt o))).

End Wording.

(** ** A concrete configuration, used to exercise the statements *)

(** A 64-bit layout: [_top] at 0, the sentinel at 8, [_base] at 16. *)
Definition layout64 : Layout :=
  {| lock_stack_base_offset := 1000; CAPACITY := 8; oopSize := 8;
     badOopVal := 12345;
     sizeof_bad_oop_sentinel := 8; sizeof_base_elem := 8;
     is_standard_layout := true;
     offsetof_bad_oop_sentinel := 8; offsetof_base := 16 |}.

(** The owner thread (thread 1) is running, no safepoint.  The low two bits
    of a mark word are the lock bits: 0 fast-locked, 1 unlocked, 2 monitor.
    The mark of an object is its address modulo 4, monitor 2 has an
    anonymous owner and monitor 6 is owned by thread 1. *)
Definition demo_runtime (recursive : bool) (current : Z) : Runtime :=
  {| LockingMode := 2; LM_LIGHTWEIGHT := 2;
     is_at_safepoint := false;
     Thread_current := current; is_Java_thread := true; get_thread := 1;
     supports_recursive_lightweight_locking := recursive;
     mark_acquire := fun o => o mod 8;
     is_locked := fun o => negb (o mod 4 =? 1);
     is_fast_locked := fun m => m mod 4 =? 0;
     monitor := fun m => m;
     is_owner_anonymous := fun m => m =? 2;
     is_owner := fun m t => (m =? 6) && (t =? 1);
     current_waiting_monitor := fun t => 0;
     is_oop := fun o => 0 <? o |}.

(** A ledger of [layout64] with the given live entries. *)
Definition ledger64 (n : Z) (entries : list oop) : LockStack :=
  {| _top := 1000 + 8 * n; _bad_oop_sentinel := 12345;
     _base := (entries ++ repeat nullptr (8 - List.length entries))%list |}.

(** * Properties *)

(** ** The error monad *)

Lemma result_unit_cases (r : result unit) :
  r = Ok tt \/ exists msg, r = Fatal msg.
Proof.
  destruct r as [[] | m]; [left; reflexivity | right; exists m; reflexivity].
Qed.

Lemma not_ok_fatal (r : result unit) :
  r <> Ok tt -> exists msg, r = Fatal msg.
Proof.
  intros H. destruct (result_unit_cases r) as [E | E];
    [contradiction | exact E].
Qed.

(** ** Offsets *)

Lemma to_u32_small (x : Z) : 0 <= x <= INT_MAX -> to_u32 x = x.
Proof.
  unfold to_u32, INT_MAX. intros H. apply Z.mod_small. lia.
Qed.

Section OffsetFacts.

Variable L : Layout.

Lemma start_offset_checked (s : Z) :
  start_offset L true = Ok s ->
  0 < lock_stack_base_offset L /\ s = to_u32 (lock_stack_base_offset L).
Proof.
  unfold start_offset, assert_in. simpl.
  destruct (0 <? lock_stack_base_offset L) eqn:E; simpl; intros H;
    [ | discriminate].
  apply Z.ltb_lt in E. inversion H. auto.
Qed.

Lemma end_offset_checked (e : Z) :
  end_offset L true = Ok e ->
  0 < lock_stack_base_offset L + CAPACITY L * oopSize L
  /\ e = to_u32 (lock_stack_base_offset L + CAPACITY L * oopSize L).
Proof.
  unfold end_offset, assert_in. simpl.
  destruct (0 <? lock_stack_base_offset L + CAPACITY L * oopSize L) eqn:E;
    simpl; intros H; [ | discriminate].
  apply Z.ltb_lt in E. inversion H. auto.
Qed.

Lemma start_offset_positive (dbg : bool) :
  0 < lock_stack_base_offset L ->
  start_offset L dbg = Ok (to_u32 (lock_stack_base_offset L)).
Proof.
  intros H. unfold start_offset, assert_in.
  apply Z.ltb_lt in H. rewrite H. destruct dbg; reflexivity.
Qed.

Lemma end_offset_positive (dbg : bool) :
  0 < lock_stack_base_offset L + CAPACITY L * oopSize L ->
  end_offset L dbg
  = Ok (to_u32 (lock_stack_base_offset L + CAPACITY L * oopSize L)).
Proof.
  intros H. unfold end_offset, assert_in.
  apply Z.ltb_lt in H. rewrite H. destruct dbg; reflexivity.
Qed.

(** C6.  Offset algebra.  For a layout with at least one slot of positive
    size whose end offset fits an [int]: whenever the checked
    [start_offset()] and [end_offset()] return, their difference is
    [CAPACITY * oopSize], both are strictly positive and start < end; and
    with a positive base offset both return, in every build, the base
    offset and the base offset plus [CAPACITY * oopSize]. *)
Theorem offset_algebra :
  0 < CAPACITY L -> 0 < oopSize L ->
  lock_stack_base_offset L + CAPACITY L * oopSize L <= INT_MAX ->
  (forall s e, start_offset L true = Ok s -> end_offset L true = Ok e ->
     e - s = CAPACITY L * oopSize L /\ 0 < s /\ 0 < e /\ s < e)
  /\ (0 < lock_stack_base_offset L -> forall dbg,
        start_offset L dbg = Ok (lock_stack_base_offset L)
        /\ end_offset L dbg
           = Ok (lock_stack_base_offset L + CAPACITY L * oopSize L)).
Proof.
  intros Hcap Hslot Hfit.
  assert (Hprod : 0 < CAPACITY L * oopSize L)
    by (apply Z.mul_pos_pos; assumption).
  split.
  - intros s e Hs He.
    apply start_offset_checked in Hs. destruct Hs as [Hpos ->].
    apply end_offset_checked in He. destruct He as [_ ->].
    rewrite !to_u32_small by lia. lia.
  - intros Hpos dbg.
    rewrite start_offset_positive, end_offset_positive by lia.
    rewrite !to_u32_small by lia. auto.
Qed.

End OffsetFacts.

(** The offsets of [layout64] are 1000 and 1064. *)
Lemma offset_algebra_witness :
  (forall s e, start_offset layout64 true = Ok s ->
               end_offset layout64 true = Ok e ->
     e - s = CAPACITY layout64 * oopSize layout64 /\ 0 < s /\ 0 < e /\ s < e)
  /\ (0 < lock_stack_base_offset layout64 -> forall dbg,
        start_offset layout64 dbg = Ok (lock_stack_base_offset layout64)
        /\ end_offset layout64 dbg
           = Ok (lock_stack_base_offset layout64
                 + CAPACITY layout64 * oopSize layout64)).
Proof.
  apply (offset_algebra layout64); simpl; unfold INT_MAX; lia.
Defined.

(** ** Array reads and writes *)

Lemma list_set_length (l : list oop) (n : nat) (v : oop) :
  List.length (list_set l n v) = List.length l.
Proof.
  revert n. induction l as [ | h t IH]; intros [ | n]; simpl; auto.
Qed.

Lemma list_set_nth_same (l : list oop) (n : nat) (v d : oop) :
  (n < List.length l)%nat -> nth n (list_set l n v) d = v.
Proof.
  revert n. induction l as [ | h t IH]; intros [ | n]; simpl; intros H;
    try lia; auto.
  apply IH. lia.
Qed.

Lemma list_set_nth_other (l : list oop) (n k : nat) (v d : oop) :
  k <> n -> nth k (list_set l n v) d = nth k l d.
Proof.
  revert n k. induction l as [ | h t IH]; intros [ | n] [ | k]; simpl;
    intros H; auto; try congruence.
Qed.

Lemma base_at_nonneg (ls : LockStack) (i : Z) :
  0 <= i -> base_at ls i = nth (Z.to_nat i) (_base ls) nullptr.
Proof.
  intros H. unfold base_at.
  destruct (i <? 0) eqn:E; [apply Z.ltb_lt in E; lia | reflexivity].
Qed.

Lemma base_set_same (ls : LockStack) (i : Z) (v : oop) :
  0 <= i < Z.of_nat (List.length (_base ls)) ->
  base_at (base_set ls i v) i = v.
Proof.
  intros H. rewrite base_at_nonneg by lia. unfold base_set.
  destruct (i <? 0) eqn:E; [apply Z.ltb_lt in E; lia | simpl].
  apply list_set_nth_same. lia.
Qed.

Lemma base_set_other (ls : LockStack) (i j : Z) (v : oop) :
  0 <= j -> j <> i -> base_at (base_set ls i v) j = base_at ls j.
Proof.
  intros Hj Hne. rewrite !base_at_nonneg by lia. unfold base_set.
  destruct (i <? 0) eqn:E; [reflexivity | simpl].
  apply Z.ltb_ge in E. apply list_set_nth_other. lia.
Qed.

Lemma base_set_frame (ls : LockStack) (i : Z) (v : oop) :
  _top (base_set ls i v) = _top ls
  /\ _bad_oop_sentinel (base_set ls i v) = _bad_oop_sentinel ls
  /\ List.length (_base (base_set ls i v)) = List.length (_base ls).
Proof.
  unfold base_set. destruct (i <? 0); simpl; auto using list_set_length.
Qed.

(** ** Construction *)

Lemma all_null_repeat (l : list oop) :
  (forall j, (j < List.length l)%nat -> nth j l nullptr = nullptr) ->
  l = repeat nullptr (List.length l).
Proof.
  induction l as [ | h t IH]; intros H; [reflexivity | ].
  cbn [List.length repeat].
  assert (Hh : h = nullptr) by (apply (H O); cbn [List.length]; lia).
  rewrite Hh at 1. f_equal.
  apply IH. intros j Hj. apply (H (S j)). cbn [List.length]. lia.
Qed.

Section Construction.

Variable L : Layout.

Lemma zap_loop_spec (fuel : nat) :
  forall (ls : LockStack) (i : Z),
    0 <= i -> CAPACITY L - i <= Z.of_nat fuel ->
    Z.of_nat (List.length (_base ls)) = CAPACITY L ->
    let r := zap_loop L fuel ls i in
    _top r = _top ls
    /\ _bad_oop_sentinel r = _bad_oop_sentinel ls
    /\ List.length (_base r) = List.length (_base ls)
    /\ (forall j, i <= j < CAPACITY L -> base_at r j = nullptr)
    /\ (forall j, 0 <= j < i -> base_at r j = base_at ls j).
Proof.
  induction fuel as [ | f IH]; intros ls i Hi Hfuel Hlen; simpl.
  - repeat split; auto. intros j Hj. lia.
  - destruct (i <? CAPACITY L) eqn:E.
    + apply Z.ltb_lt in E.
      destruct (base_set_frame ls i nullptr) as (Ht & Hs & Hl).
      assert (Hlen' : Z.of_nat (List.length (_base (base_set ls i nullptr)))
                      = CAPACITY L) by (rewrite Hl; exact Hlen).
      destruct (IH (base_set ls i nullptr) (i + 1)) as (T & S' & Ln & Z1 & K);
        try lia.
      repeat split; try congruence.
      * intros j Hj. destruct (Z.eq_dec j i) as [-> | Hne].
        -- rewrite K by lia. apply base_set_same. lia.
        -- apply Z1. lia.
      * intros j Hj. rewrite K by lia. apply base_set_other; lia.
    + apply Z.ltb_ge in E. repeat split; auto. intros j Hj. lia.
Qed.

Lemma LockStack_init_length :
  0 <= CAPACITY L ->
  Z.of_nat (List.length (_base (LockStack_init L))) = CAPACITY L.
Proof.
  intros H. simpl. rewrite repeat_length. lia.
Qed.

(** C7.  The constructor leaves the top cursor at the start offset, so that
    the ledger is empty; the object it returns has exactly CAPACITY slots,
    and in a checked build every one of them holds [nullptr], the poison
    value: the object is what the clearing loop makes of the initialised
    members.  That loop turns any array of CAPACITY slots, whatever it
    held before, into CAPACITY slots holding [nullptr], and leaves the
    cursor alone. *)
Theorem ctor_initial_state (dbg : bool) (jt : Z) :
  let ls := LockStack_ctor L dbg jt in
  _top ls = to_u32 (lock_stack_base_offset L)
  /\ (forall s, start_offset L true = Ok s -> _top ls = s)
  /\ to_index L (_top ls) = 0
  /\ List.length (_base ls) = Z.to_nat (CAPACITY L)
  /\ (dbg = true -> _base ls = repeat nullptr (Z.to_nat (CAPACITY L)))
  /\ (dbg = true ->
      forall i, 0 <= i < CAPACITY L -> base_at ls i = nullptr)
  /\ (dbg = true ->
      ls = zap_loop L (Z.to_nat (CAPACITY L)) (LockStack_init L) 0)
  /\ (forall pre : LockStack,
        Z.of_nat (List.length (_base pre)) = CAPACITY L ->
        let r := zap_loop L (Z.to_nat (CAPACITY L)) pre 0 in
        _top r = _top pre
        /\ _base r = repeat nullptr (Z.to_nat (CAPACITY L))
        /\ forall i, 0 <= i < CAPACITY L -> base_at r i = nullptr).
Proof.
  assert (Hzap : forall pre : LockStack,
             Z.of_nat (List.length (_base pre)) = CAPACITY L ->
             let r := zap_loop L (Z.to_nat (CAPACITY L)) pre 0 in
             _top r = _top pre
             /\ _base r = repeat nullptr (Z.to_nat (CAPACITY L))
             /\ forall i, 0 <= i < CAPACITY L -> base_at r i = nullptr).
  { intros pre Hlen.
    destruct (zap_loop_spec (Z.to_nat (CAPACITY L)) pre 0)
      as (T & _ & Ln & Z1 & _); try lia.
    split; [exact T | ]. split; [ | exact Z1].
    replace (Z.to_nat (CAPACITY L))
      with (List.length (_base (zap_loop L (Z.to_nat (CAPACITY L)) pre 0)))
      at 2 by lia.
    apply all_null_repeat. intros j Hj.
    rewrite <- (Nat2Z.id j), <- base_at_nonneg by lia.
    apply Z1. lia. }
  assert (Hbase : _top (LockStack_ctor L dbg jt)
                  = to_u32 (lock_stack_base_offset L)
                  /\ _base (LockStack_ctor L dbg jt)
                     = repeat nullptr (Z.to_nat (CAPACITY L))).
  { unfold LockStack_ctor. destruct dbg; [ | split; reflexivity].
    destruct (Z_le_gt_dec 0 (CAPACITY L)) as [Hc | Hc].
    - destruct (Hzap (LockStack_init L) (LockStack_init_length Hc))
        as (T & B & _).
      split; [exact T | exact B].
    - assert (E : Z.to_nat (CAPACITY L) = O) by lia.
      rewrite E. cbn [zap_loop]. unfold LockStack_init. cbn [_top _base].
      rewrite E. split; reflexivity. }
  destruct Hbase as [Htop Hbase].
  cbv zeta.
  split; [exact Htop | ]. split.
  { intros s Hs. apply start_offset_checked in Hs. destruct Hs as [_ ->].
    exact Htop. }
  split.
  { rewrite Htop. unfold to_index. rewrite Z.sub_diag. reflexivity. }
  split.
  { rewrite Hbase. apply repeat_length. }
  split.
  { intros _. exact Hbase. }
  split.
  { intros _ i Hi. rewrite base_at_nonneg by lia. rewrite Hbase.
    apply nth_repeat. }
  split.
  { intros ->. reflexivity. }
  exact Hzap.
Qed.

End Construction.

(** ** The structural verifier *)

Lemma assert_then_ok_iff (p : bool) (msg : string) (k : result unit) :
  (assert p msg ;;; k) = Ok tt <-> p = true /\ k = Ok tt.
Proof.
  destruct p; simpl; split.
  - auto.
  - intros [_ H]. exact H.
  - discriminate.
  - intros [H _]. discriminate.
Qed.

Lemma then_ok_iff (r k : result unit) :
  (r ;;; k) = Ok tt <-> r = Ok tt /\ k = Ok tt.
Proof.
  destruct r as [[] | m]; simpl; split.
  - auto.
  - intros [_ H]. exact H.
  - discriminate.
  - intros [H _]. discriminate.
Qed.

Lemma skip_run_spec (ls : LockStack) (o : oop) (top : Z) (fuel : nat) :
  forall i, top - 1 - i <= Z.of_nat fuel ->
    let i1 := skip_run fuel ls o i top in
    i <= i1
    /\ (i < top -> i1 < top)
    /\ (forall k, i < k <= i1 -> base_at ls k = o)
    /\ (i1 + 1 < top -> base_at ls (i1 + 1) <> o).
Proof.
  induction fuel as [ | f IH]; intros i Hfuel; simpl.
  - repeat split; intros; lia.
  - destruct (i <? top - 1) eqn:E.
    + apply Z.ltb_lt in E.
      destruct (base_at ls (i + 1) =? o) eqn:Eo; simpl.
      * apply Z.eqb_eq in Eo.
        destruct (IH (i + 1)) as (A & B & C & D); [lia | ].
        repeat split; try lia.
        intros k Hk. destruct (Z.eq_dec k (i + 1)) as [-> | Hne];
          [exact Eo | apply C; lia].
      * apply Z.eqb_neq in Eo. repeat split; try lia.
    + apply Z.ltb_ge in E. repeat split; intros; lia.
Qed.

Lemma unique_from_spec (msg : string) (ls : LockStack) (i top : Z)
                       (fuel : nat) :
  forall j, top - j <= Z.of_nat fuel ->
    (unique_from fuel msg ls i j top = Ok tt
     <-> forall q, j <= q < top -> base_at ls i <> base_at ls q).
Proof.
  induction fuel as [ | f IH]; intros j Hfuel; simpl.
  - split; [intros _ q Hq; lia | reflexivity].
  - destruct (j <? top) eqn:E.
    + apply Z.ltb_lt in E.
      rewrite assert_then_ok_iff, negb_true_iff, Z.eqb_neq, (IH (j + 1)) by lia.
      split.
      * intros [H0 H1] q Hq. destruct (Z.eq_dec q j) as [-> | Hne];
          [exact H0 | apply H1; lia].
      * intros H. split; [apply H; lia | intros q Hq; apply H; lia].
    + apply Z.ltb_ge in E. split; [intros _ q Hq; lia | reflexivity].
Qed.

(** ** Loop bounds

    The loops that count upwards carry a bound on the number of iterations.
    The bound each caller passes is the distance to the limit of the loop;
    a larger one gives the same result, so no loop is cut short. *)

Lemma skip_run_fuel (ls : LockStack) (o : oop) (top : Z) (f1 : nat) :
  forall (f2 : nat) (i : Z),
    top - 1 - i <= Z.of_nat f1 -> top - 1 - i <= Z.of_nat f2 ->
    skip_run f1 ls o i top = skip_run f2 ls o i top.
Proof.
  induction f1 as [ | f1 IH]; intros [ | f2] i H1 H2; cbn [skip_run];
    try reflexivity.
  - replace (i <? top - 1) with false by (symmetry; apply Z.ltb_ge; lia).
    reflexivity.
  - replace (i <? top - 1) with false by (symmetry; apply Z.ltb_ge; lia).
    reflexivity.
  - destruct (i <? top - 1) eqn:E; [ | reflexivity].
    apply Z.ltb_lt in E.
    destruct (negb (base_at ls (i + 1) =? o)); [reflexivity | ].
    apply IH; lia.
Qed.

Lemma unique_from_fuel (msg : string) (ls : LockStack) (i top : Z)
                       (f1 : nat) :
  forall (f2 : nat) (j : Z),
    top - j <= Z.of_nat f1 -> top - j <= Z.of_nat f2 ->
    unique_from f1 msg ls i j top = unique_from f2 msg ls i j top.
Proof.
  induction f1 as [ | f1 IH]; intros [ | f2] j H1 H2; cbn [unique_from];
    try reflexivity.
  - replace (j <? top) with false by (symmetry; apply Z.ltb_ge; lia).
    reflexivity.
  - replace (j <? top) with false by (symmetry; apply Z.ltb_ge; lia).
    reflexivity.
  - destruct (j <? top) eqn:E; [ | reflexivity].
    apply Z.ltb_lt in E. rewrite (IH f2 (j + 1)) by lia. reflexivity.
Qed.

Lemma find_top_index_fuel (ls : LockStack) (obj : oop) (top_index : Z)
                          (f1 : nat) :
  forall (f2 : nat) (index : Z),
    top_index - index <= Z.of_nat f1 -> top_index - index <= Z.of_nat f2 ->
    find_top_index f1 ls obj index top_index
    = find_top_index f2 ls obj index top_index.
Proof.
  induction f1 as [ | f1 IH]; intros [ | f2] index H1 H2;
    cbn [find_top_index]; try reflexivity.
  - replace (index <? top_index) with false
      by (symmetry; apply Z.ltb_ge; lia).
    reflexivity.
  - replace (index <? top_index) with false
      by (symmetry; apply Z.ltb_ge; lia).
    reflexivity.
  - destruct (index <? top_index) eqn:E; [ | reflexivity].
    apply Z.ltb_lt in E.
    destruct (base_at ls index =? obj); [reflexivity | ].
    apply IH; lia.
Qed.

Lemma verify_zapped_fuel (L : Layout) (ls : LockStack) (f1 : nat) :
  forall (f2 : nat) (i : Z),
    CAPACITY L - i <= Z.of_nat f1 -> CAPACITY L - i <= Z.of_nat f2 ->
    verify_zapped L f1 ls i = verify_zapped L f2 ls i.
Proof.
  induction f1 as [ | f1 IH]; intros [ | f2] i H1 H2; cbn [verify_zapped];
    try reflexivity.
  - replace (i <? CAPACITY L) with false by (symmetry; apply Z.ltb_ge; lia).
    reflexivity.
  - replace (i <? CAPACITY L) with false by (symmetry; apply Z.ltb_ge; lia).
    reflexivity.
  - destruct (i <? CAPACITY L) eqn:E; [ | reflexivity].
    apply Z.ltb_lt in E. rewrite (IH f2 (i + 1)) by lia. reflexivity.
Qed.

Lemma zap_loop_fuel (L : Layout) (f1 : nat) :
  forall (f2 : nat) (ls : LockStack) (i : Z),
    CAPACITY L - i <= Z.of_nat f1 -> CAPACITY L - i <= Z.of_nat f2 ->
    zap_loop L f1 ls i = zap_loop L f2 ls i.
Proof.
  induction f1 as [ | f1 IH]; intros [ | f2] ls i H1 H2; cbn [zap_loop];
    try reflexivity.
  - replace (i <? CAPACITY L) with false by (symmetry; apply Z.ltb_ge; lia).
    reflexivity.
  - replace (i <? CAPACITY L) with false by (symmetry; apply Z.ltb_ge; lia).
    reflexivity.
  - destruct (i <? CAPACITY L) eqn:E; [ | reflexivity].
    apply Z.ltb_lt in E. apply IH; lia.
Qed.

Lemma verify_live_fuel (rt : Runtime) (msg : string) (ls : LockStack)
                       (top : Z) (f1 : nat) :
  forall (f2 : nat) (i : Z),
    top - i <= Z.of_nat f1 -> top - i <= Z.of_nat f2 ->
    verify_live rt f1 msg ls i top = verify_live rt f2 msg ls i top.
Proof.
  induction f1 as [ | f1 IH]; intros [ | f2] i H1 H2; cbn [verify_live];
    try reflexivity.
  - replace (i <? top) with false by (symmetry; apply Z.ltb_ge; lia).
    reflexivity.
  - replace (i <? top) with false by (symmetry; apply Z.ltb_ge; lia).
    reflexivity.
  - destruct (i <? top) eqn:E; [ | reflexivity].
    apply Z.ltb_lt in E.
    set (i1 := if supports_recursive_lightweight_locking rt
               then skip_run (Z.to_nat (top - 1 - i)) ls (base_at ls i) i top
               else i).
    assert (Hi1 : i <= i1).
    { subst i1. destruct (supports_recursive_lightweight_locking rt); [ | lia].
      apply (skip_run_spec ls (base_at ls i) top). lia. }
    rewrite (IH f2 (i1 + 1)) by lia. reflexivity.
Qed.

Section VerifyFacts.

Variable L : Layout.
Variable rt : Runtime.

Lemma verify_zapped_spec (ls : LockStack) (fuel : nat) :
  forall i, CAPACITY L - i <= Z.of_nat fuel ->
    (verify_zapped L fuel ls i = Ok tt
     <-> forall q, i <= q < CAPACITY L -> base_at ls q = nullptr).
Proof.
  induction fuel as [ | f IH]; intros i Hfuel; simpl.
  - split; [intros _ q Hq; lia | reflexivity].
  - destruct (i <? CAPACITY L) eqn:E.
    + apply Z.ltb_lt in E.
      rewrite assert_then_ok_iff, Z.eqb_eq, (IH (i + 1)) by lia.
      split.
      * intros [H0 H1] q Hq. destruct (Z.eq_dec q i) as [-> | Hne];
          [exact H0 | apply H1; lia].
      * intros H. split; [apply H; lia | intros q Hq; apply H; lia].
    + apply Z.ltb_ge in E. split; [intros _ q Hq; lia | reflexivity].
Qed.

Lemma verify_live_spec (msg : string) (ls : LockStack) (top : Z)
                       (fuel : nat) :
  forall i, top - i <= Z.of_nat fuel ->
    (verify_live rt fuel msg ls i top = Ok tt
     <-> dense_from ls i top /\ unique_from_to rt ls i top).
Proof.
  induction fuel as [ | f IH]; intros i Hfuel; simpl.
  - split; [ | reflexivity].
    intros _. split; [intros p Hp; lia | intros p q Hp Hq; lia].
  - destruct (i <? top) eqn:E.
    2:{ apply Z.ltb_ge in E. split; [ | reflexivity].
        intros _. split; [intros p Hp; lia | intros p q Hp Hq; lia]. }
    apply Z.ltb_lt in E.
    set (i1 := if supports_recursive_lightweight_locking rt
               then skip_run (Z.to_nat (top - 1 - i)) ls (base_at ls i) i top
               else i).
    assert (Hrun : i <= i1 < top
                   /\ (forall k, i <= k <= i1 -> base_at ls k = base_at ls i)
                   /\ (i < i1 ->
                       supports_recursive_lightweight_locking rt = true)
                   /\ (supports_recursive_lightweight_locking rt = true ->
                       i1 + 1 < top -> base_at ls (i1 + 1) <> base_at ls i)).
    { subst i1. destruct (supports_recursive_lightweight_locking rt).
      - destruct (skip_run_spec ls (base_at ls i) top
                    (Z.to_nat (top - 1 - i)) i) as (A & B & C & D); [lia | ].
        repeat split; try lia; auto.
        intros k Hk. destruct (Z.eq_dec k i) as [-> | Hne];
          [reflexivity | apply C; lia].
      - repeat split; try lia.
        intros k Hk. replace k with i by lia. reflexivity. }
    destruct Hrun as (Hi1 & Hsame & Hrec & Hstop).
    rewrite assert_then_ok_iff, then_ok_iff, negb_true_iff, Z.eqb_neq.
    rewrite (unique_from_spec msg ls i1 top
               (Z.to_nat (top - (i1 + 1))) (i1 + 1)) by lia.
    rewrite (IH (i1 + 1)) by lia.
    split.
    + intros (Hnz & Huniq & Hd & Hu). split.
      * intros p Hp. destruct (Z_le_gt_dec p i1) as [Hle | Hgt].
        -- rewrite Hsame by lia. exact Hnz.
        -- apply Hd. lia.
      * intros p q Hp Hq Heq.
        destruct (Z_le_gt_dec p i1) as [Hle | Hgt]; [ | apply Hu; auto; lia].
        destruct (Z_le_gt_dec q i1) as [Hqle | Hqgt].
        -- split; [apply Hrec; lia | ].
           intros k Hk. rewrite (Hsame k), (Hsame p) by lia. reflexivity.
        -- exfalso. apply (Huniq q); [lia | ].
           rewrite <- Heq. rewrite (Hsame i1), (Hsame p) by lia. reflexivity.
    + intros [Hd Hu]. split; [apply Hd; lia | ]. split.
      * intros q Hq Heq.
        destruct (Hu i1 q) as [Hr Hall]; [lia | lia | exact Heq | ].
        apply (Hstop Hr); [lia | ].
        rewrite (Hall (i1 + 1)) by lia. apply Hsame. lia.
      * split; [intros p Hp; apply Hd; lia | ].
        intros p q Hp Hq. apply Hu; lia.
Qed.

End VerifyFacts.

Section VerifyTheorems.

Variable L : Layout.
Variable rt : Runtime.

Lemma verify_range_part (ls : LockStack) (k : result unit) :
  (e <- end_offset L true ;;
   assert (_top ls <=? e) "lockstack overflow: _top %d end_offset %d" ;;;
   s <- start_offset L true ;;
   assert (_top ls >=? s) "lockstack underflow: _top %d start_offset %d" ;;;
   k) = Ok tt
  <-> top_in_range L ls /\ k = Ok tt.
Proof.
  unfold top_in_range.
  destruct (end_offset L true) as [e | m] eqn:Ee; simpl.
  2:{ split; [discriminate | ]. intros [(s & e & _ & He & _) _]. discriminate. }
  destruct (start_offset L true) as [s | m] eqn:Es; simpl.
  - rewrite assert_then_ok_iff, assert_then_ok_iff, Z.leb_le, Z.geb_le.
    split.
    + intros (H1 & H2 & H3). split; [ | exact H3].
      exists s, e. repeat split; auto.
    + intros [(s' & e' & Hs & He & Hr) Hk].
      inversion Hs. inversion He. subst. repeat split; auto; lia.
  - destruct (_top ls <=? e); simpl.
    + split; [discriminate | ]. intros [(s & e' & Hs & _) _]. discriminate.
    + split; [discriminate | ]. intros [(s & e' & Hs & _) _]. discriminate.
Qed.

(** What a successful [verify] amounts to. *)
Lemma verify_ok_iff (msg : string) (ls : LockStack) :
  verify L rt msg ls = Ok tt
  <-> LockingMode rt = LM_LIGHTWEIGHT rt
      /\ top_in_range L ls
      /\ (may_inspect rt = true ->
          dense L ls /\ unique_up_to_runs L rt ls /\ zapped L ls).
Proof.
  unfold verify.
  rewrite assert_then_ok_iff, Z.eqb_eq, verify_range_part.
  destruct (may_inspect rt).
  - rewrite then_ok_iff.
    rewrite (verify_live_spec rt msg ls (to_index L (_top ls))
               (Z.to_nat (to_index L (_top ls))) 0) by lia.
    rewrite (verify_zapped_spec L ls
               (Z.to_nat (CAPACITY L - to_index L (_top ls)))
               (to_index L (_top ls))) by lia.
    unfold dense, unique_up_to_runs, zapped, dense_from, unique_from_to, depth.
    split.
    + intros (Hm & Hr & (Hd & Hu) & Hz).
      split; [exact Hm | split; [exact Hr | intros _ ]].
      split; [exact Hd | split; [exact Hu | exact Hz]].
    + intros (Hm & Hr & H). destruct (H eq_refl) as (Hd & Hu & Hz).
      split; [exact Hm | split; [exact Hr | ]].
      split; [split; [exact Hd | exact Hu] | exact Hz].
  - split.
    + intros (Hm & Hr & _).
      split; [exact Hm | split; [exact Hr | discriminate]].
    + intros (Hm & Hr & _). auto.
Qed.

(** C4.  Called by the owner or at a safepoint, [verify] returns only if the
    top cursor lies in [[start_offset, end_offset]], every slot below
    [n = index(top)] holds a reference and every slot from [n] up to
    CAPACITY is empty; a ledger that violates one of the three is a fatal
    error; and a ledger that meets the three is accepted when lightweight
    locking is in use and its equal entries form runs that the platform
    allows. *)
Theorem verify_structure (msg : string) (ls : LockStack) :
  may_inspect rt = true ->
  (verify L rt msg ls = Ok tt ->
   top_in_range L ls /\ dense L ls /\ zapped L ls)
  /\ (~ (top_in_range L ls /\ dense L ls /\ zapped L ls) ->
      exists m, verify L rt msg ls = Fatal m)
  /\ (LockingMode rt = LM_LIGHTWEIGHT rt -> unique_up_to_runs L rt ls ->
      top_in_range L ls /\ dense L ls /\ zapped L ls ->
      verify L rt msg ls = Ok tt).
Proof.
  intros Hgate.
  assert (Hsound : verify L rt msg ls = Ok tt ->
                   top_in_range L ls /\ dense L ls /\ zapped L ls).
  { intros H. apply verify_ok_iff in H. destruct H as (_ & Hr & H).
    destruct (H Hgate) as (Hd & _ & Hz). auto. }
  split; [exact Hsound | ]. split.
  - intros Hbad. apply not_ok_fatal. intros H. apply Hbad, Hsound, H.
  - intros Hm Hu (Hr & Hd & Hz). apply verify_ok_iff. auto.
Qed.

(** C5.  Called by the owner or at a safepoint, [verify] returns only if two
    different live positions that hold the same reference lie in one run of
    adjacent equal entries and recursive lightweight locking is supported;
    a duplicate with a different entry in between, and any duplicate
    without recursion support, is a fatal error. *)
Theorem verify_uniqueness (msg : string) (ls : LockStack) :
  may_inspect rt = true ->
  (verify L rt msg ls = Ok tt -> unique_up_to_runs L rt ls)
  /\ (forall p q, 0 <= p < q -> q < depth L ls ->
        base_at ls p = base_at ls q ->
        supports_recursive_lightweight_locking rt = false
        \/ (exists k, p < k < q /\ base_at ls k <> base_at ls p) ->
        exists m, verify L rt msg ls = Fatal m).
Proof.
  intros Hgate.
  assert (Hsound : verify L rt msg ls = Ok tt -> unique_up_to_runs L rt ls).
  { intros H. apply verify_ok_iff in H. destruct H as (_ & _ & H).
    destruct (H Hgate) as (_ & Hu & _). exact Hu. }
  split; [exact Hsound | ].
  intros p q Hp Hq Heq Hbad. apply not_ok_fatal. intros H.
  destruct (Hsound H p q Hp Hq Heq) as [Hrec Hall].
  destruct Hbad as [Hno | (k & Hk & Hne)].
  - congruence.
  - apply Hne, Hall. lia.
Qed.

(** C9.  Away from a safepoint and called by a thread that is not a Java
    thread or not the owner, [verify] (lightweight locking being in use)
    returns exactly when the top cursor lies in [[start_offset,
    end_offset]], and its outcome does not depend on the contents of the
    slots. *)
Theorem verify_foreign_thread (msg : string) (ls : LockStack) :
  is_at_safepoint rt = false ->
  is_Java_thread rt = false \/ is_owning_thread rt = false ->
  LockingMode rt = LM_LIGHTWEIGHT rt ->
  (verify L rt msg ls = Ok tt <-> top_in_range L ls)
  /\ (forall sentinel' base',
        verify L rt msg (mkLockStack (_top ls) sentinel' base')
        = verify L rt msg ls).
Proof.
  intros Hsp Hthread Hmode.
  assert (Hgate : may_inspect rt = false).
  { unfold may_inspect. rewrite Hsp. simpl.
    destruct Hthread as [-> | ->]; [reflexivity | apply andb_false_r]. }
  split.
  - rewrite verify_ok_iff, Hgate. split.
    + intros (_ & Hr & _). exact Hr.
    + intros Hr. split; [exact Hmode | split; [exact Hr | discriminate]].
  - intros sentinel' base'. unfold verify. rewrite Hgate. reflexivity.
Qed.

End VerifyTheorems.

(** A run [A, A] is accepted with recursive locking and refused without. *)
Example verify_accepts_run :
  verify layout64 (demo_runtime true 1) "pre-contains"
    (ledger64 3 [100; 100; 200]) = Ok tt.
Proof. reflexivity. Qed.

Example verify_refuses_run_without_recursion :
  verify layout64 (demo_runtime false 1) "pre-contains"
    (ledger64 3 [100; 100; 200])
  = Fatal "entries must be unique: pre-contains".
Proof. reflexivity. Qed.

Example verify_refuses_hole :
  verify layout64 (demo_runtime true 1) "pre-contains"
    (ledger64 3 [100; 0; 200]) = Fatal "no zapped before top".
Proof. reflexivity. Qed.

Example verify_refuses_dirty_slot :
  verify layout64 (demo_runtime true 1) "pre-contains"
    (ledger64 2 [100; 200; 300])
  = Fatal "only zapped entries after top: i: %d, top: %d, entry: %p".
Proof. reflexivity. Qed.

(** The owner verifies a ledger [A, A, B] of [layout64]. *)
Lemma verify_structure_witness :
  may_inspect (demo_runtime true 1) = true
  /\ top_in_range layout64 (ledger64 3 [100; 100; 200])
  /\ dense layout64 (ledger64 3 [100; 100; 200])
  /\ zapped layout64 (ledger64 3 [100; 100; 200]).
Proof.
  split; [reflexivity | ].
  destruct (verify_structure layout64 (demo_runtime true 1) "pre-contains"
              (ledger64 3 [100; 100; 200]) eq_refl) as (H & _ & _).
  apply H. reflexivity.
Defined.

(** The owner verifies a ledger [A, B, A]: a duplicate that is not a run. *)
Lemma verify_uniqueness_witness :
  exists m, verify layout64 (demo_runtime true 1) "pre-contains"
              (ledger64 3 [100; 200; 100]) = Fatal m.
Proof.
  destruct (verify_uniqueness layout64 (demo_runtime true 1) "pre-contains"
              (ledger64 3 [100; 200; 100]) eq_refl) as [_ H].
  apply (H 0 2).
  - lia.
  - reflexivity.
  - reflexivity.
  - right. exists 1. split; [lia | discriminate].
Defined.

(** Thread 2 verifies the ledger of thread 1 away from a safepoint: the
    ledger [A, B, A] with a dirty slot above the top passes. *)
Lemma verify_foreign_thread_witness :
  verify layout64 (demo_runtime true 2) "pre-contains"
    (mkLockStack 1024 12345 [100; 200; 100; 7; 0; 0; 0; 0]) = Ok tt
  <-> top_in_range layout64
        (mkLockStack 1024 12345 [100; 200; 100; 7; 0; 0; 0; 0]).
Proof.
  apply (verify_foreign_thread layout64 (demo_runtime true 2) "pre-contains"
           (mkLockStack 1024 12345 [100; 200; 100; 7; 0; 0; 0; 0])).
  - reflexivity.
  - right. reflexivity.
  - reflexivity.
Defined.

(** ** The diagnostic dump *)

Section Dump.

Variable L : Layout.
Variable rt : Runtime.

Lemma print_loop_spec (ls : LockStack) (k : nat) :
  forall st : outputStream,
    print_loop rt k ls st
    = (ls, (st ++ flat_map (dump_entry rt ls) (rev (seq 0 k)))%list).
Proof.
  induction k as [ | k IH]; intros st.
  - simpl. rewrite app_nil_r. reflexivity.
  - rewrite seq_S, rev_app_distr. cbn [print_loop rev app flat_map Nat.add].
    rewrite IH. unfold emit, dump_entry.
    destruct (is_oop rt (base_at ls (Z.of_nat k)));
      rewrite <- !app_assoc; reflexivity.
Qed.

(** C10.  [print_on] visits the entries at the indices [top - 1] down to
    [0] in that order; for each it prints the index, then lets a plausible
    object print itself and prints any other value as a raw address tagged
    "not an oop"; the ledger is the same after the dump. *)
Theorem print_on_dump (ls : LockStack) (st : outputStream) :
  print_on L rt ls st
  = (ls, (st ++ flat_map (dump_entry rt ls)
                         (rev (seq 0 (Z.to_nat (depth L ls)))))%list).
Proof.
  unfold print_on, depth. apply print_loop_spec.
Qed.

End Dump.

(** ** The lock-order cross-check *)

Lemma firstn_succ_at (l : list oop) (k : nat) :
  (k < List.length l)%nat ->
  firstn (S k) l = (firstn k l ++ [at_ l k])%list.
Proof.
  unfold at_. revert k. induction l as [ | h t IH]; intros k Hk; simpl in Hk.
  - lia.
  - destruct k as [ | k]; [reflexivity | ].
    cbn [firstn nth app]. cbn [firstn] in IH. rewrite IH by lia. reflexivity.
Qed.

Lemma at_app_left (l1 l2 : list oop) (k : nat) :
  (k < List.length l1)%nat -> at_ (l1 ++ l2) k = at_ l1 k.
Proof. intros H. unfold at_. apply app_nth1. exact H. Qed.

Lemma at_app_right (l1 l2 : list oop) (j : nat) :
  at_ (l1 ++ l2) (List.length l1 + j) = at_ l2 j.
Proof. unfold at_. apply app_nth2_plus. Qed.

Lemma contains_loop_existsb (ls : LockStack) (o : oop) (k : nat) :
  contains_loop ls o k
  = existsb (fun x => x =? o)
            (map (fun i => base_at ls (Z.of_nat i)) (seq 0 k)).
Proof.
  induction k as [ | k IH]; [reflexivity | ].
  rewrite seq_S, map_app, existsb_app.
  cbn [contains_loop]. rewrite IH.
  cbn [map existsb Nat.add]. rewrite orb_false_r.
  destruct (base_at ls (Z.of_nat k) =? o);
    [rewrite orb_true_r | rewrite orb_false_r]; reflexivity.
Qed.

Lemma contains_loop_true_iff (ls : LockStack) (o : oop) (k : nat) :
  contains_loop ls o k = true
  <-> exists i, 0 <= i < Z.of_nat k /\ base_at ls i = o.
Proof.
  induction k as [ | k IH]; simpl.
  - split; [discriminate | intros (i & Hi & _); lia].
  - destruct (base_at ls (Z.of_nat k) =? o) eqn:E.
    + apply Z.eqb_eq in E. split; [ | reflexivity].
      intros _. exists (Z.of_nat k). split; [lia | exact E].
    + apply Z.eqb_neq in E. rewrite IH. split.
      * intros (i & Hi & Ho). exists i. split; [lia | exact Ho].
      * intros (i & Hi & Ho). exists i. split; [ | exact Ho].
        destruct (Z.eq_dec i (Z.of_nat k)) as [-> | Hne]; [contradiction | lia].
Qed.

Lemma position_bounds (o : oop) (l : list oop) :
  existsb (fun x => x =? o) l = true ->
  0 <= position o l < Z.of_nat (List.length l).
Proof.
  induction l as [ | x t IH]; cbn [existsb position List.length];
    [discriminate | ].
  destruct (x =? o); cbn [orb]; intros H; [lia | ].
  specialize (IH H). lia.
Qed.

Lemma position_first (o : oop) (l : list oop) :
  existsb (fun x => x =? o) l = true ->
  nth (Z.to_nat (position o l)) l nullptr = o
  /\ forall j, (j < Z.to_nat (position o l))%nat -> nth j l nullptr <> o.
Proof.
  induction l as [ | x t IH]; cbn [existsb position]; [discriminate | ].
  destruct (x =? o) eqn:E; cbn [orb]; intros H.
  - apply Z.eqb_eq in E. split; [exact E | intros j Hj; simpl in Hj; lia].
  - apply Z.eqb_neq in E. destruct (IH H) as [Hn Hbefore].
    pose proof (position_bounds o t H) as Hb.
    replace (Z.to_nat (1 + position o t)) with (S (Z.to_nat (position o t)))
      by lia.
    split; [exact Hn | ].
    intros [ | j] Hj; [exact E | apply Hbefore; lia].
Qed.

Lemma find_top_index_position (ls : LockStack) (o : oop) (len : nat) :
  forall (a fuel : nat),
    (len <= fuel)%nat ->
    existsb (fun x => x =? o)
            (map (fun i => base_at ls (Z.of_nat i)) (seq a len)) = true ->
    find_top_index fuel ls o (Z.of_nat a) (Z.of_nat (a + len))
    = Z.of_nat a
      + position o (map (fun i => base_at ls (Z.of_nat i)) (seq a len)) + 1.
Proof.
  induction len as [ | len IH]; intros a fuel Hfuel Hex; simpl in Hex.
  - discriminate.
  - destruct fuel as [ | f]; [lia | ].
    cbn [find_top_index seq map position].
    replace (Z.of_nat a <? Z.of_nat (a + S len)) with true
      by (symmetry; apply Z.ltb_lt; lia).
    destruct (base_at ls (Z.of_nat a) =? o) eqn:E; simpl in Hex.
    + lia.
    + replace (Z.of_nat a + 1) with (Z.of_nat (S a)) by lia.
      replace (a + S len)%nat with (S a + len)%nat by lia.
      rewrite IH by (auto; lia). lia.
Qed.

Lemma count_repeats_leading (lock_order : list oop) (obj : oop) (k : nat) :
  forall t, (k <= List.length lock_order)%nat ->
    count_repeats lock_order obj k t
    = t + leading_repeats obj (rev (firstn k lock_order)).
Proof.
  induction k as [ | k IH]; intros t Hk.
  - simpl. lia.
  - rewrite firstn_succ_at, rev_app_distr by lia.
    cbn [count_repeats rev app leading_repeats].
    destruct (at_ lock_order k =? obj); [ | lia].
    rewrite IH by lia. lia.
Qed.

Section LockOrder.

Variable L : Layout.
Variable rt : Runtime.

Lemma live_entries_length (ls : LockStack) :
  List.length (live_entries L ls) = Z.to_nat (depth L ls).
Proof. unfold live_entries. rewrite length_map, length_seq. reflexivity. Qed.

Lemma live_entries_nth (ls : LockStack) (j : nat) :
  (j < Z.to_nat (depth L ls))%nat ->
  nth j (live_entries L ls) nullptr = base_at ls (Z.of_nat j).
Proof.
  intros H. unfold live_entries.
  rewrite (nth_indep _ nullptr (base_at ls (Z.of_nat 0)))
    by (rewrite length_map, length_seq; exact H).
  rewrite (map_nth (fun i => base_at ls (Z.of_nat i))), seq_nth by exact H.
  reflexivity.
Qed.

Lemma contains_live (ls : LockStack) (o : oop) :
  contains L ls o = existsb (fun x => x =? o) (live_entries L ls).
Proof. unfold contains. apply contains_loop_existsb. Qed.

Lemma contains_true_iff (ls : LockStack) (o : oop) :
  contains L ls o = true
  <-> exists i, 0 <= i < depth L ls /\ base_at ls i = o.
Proof.
  unfold contains, depth. rewrite contains_loop_true_iff. split.
  - intros (i & Hi & Ho). exists i. split; [lia | exact Ho].
  - intros (i & Hi & Ho). exists i. split; [lia | exact Ho].
Qed.

Lemma contains_false_iff (ls : LockStack) (o : oop) :
  contains L ls o = false
  <-> forall i, 0 <= i < depth L ls -> base_at ls i <> o.
Proof.
  rewrite <- not_true_iff_false, contains_true_iff. split.
  - intros H i Hi Ho. apply H. exists i. auto.
  - intros H (i & Hi & Ho). apply (H i Hi Ho).
Qed.

Lemma position_in_ledger (ls : LockStack) (o : oop) :
  contains L ls o = true ->
  let p := position o (live_entries L ls) in
  0 <= p < depth L ls
  /\ base_at ls p = o
  /\ forall j, 0 <= j < p -> base_at ls j <> o.
Proof.
  intros H. rewrite contains_live in H.
  pose proof (position_bounds o _ H) as Hb.
  rewrite live_entries_length in Hb.
  destruct (position_first o _ H) as [Hn Hfirst].
  cbv zeta. split; [lia | ]. split.
  - rewrite live_entries_nth in Hn by lia.
    rewrite Z2Nat.id in Hn by lia. exact Hn.
  - intros j Hj Ho. apply (Hfirst (Z.to_nat j)); [lia | ].
    rewrite live_entries_nth by lia. rewrite Z2Nat.id by lia. exact Ho.
Qed.

Lemma find_top_index_in_ledger (ls : LockStack) (o : oop) :
  contains L ls o = true ->
  find_top_index (Z.to_nat (depth L ls)) ls o 0 (depth L ls)
  = position o (live_entries L ls) + 1.
Proof.
  intros H. rewrite contains_live in H.
  pose proof (position_bounds o _ H) as Hb.
  rewrite live_entries_length in Hb.
  pose proof (find_top_index_position ls o (Z.to_nat (depth L ls)) 0
                (Z.to_nat (depth L ls)) (le_n _) H) as Hf.
  cbn [Nat.add] in Hf. rewrite Z2Nat.id in Hf by lia. exact Hf.
Qed.

Lemma anchor_loop_window (ls : LockStack) (lock_order : list oop) (k : nat) :
  (k <= List.length lock_order)%nat ->
  anchor_loop L rt ls lock_order k (depth L ls)
  = window_of_scan L rt ls (rev (firstn k lock_order)).
Proof.
  induction k as [ | k IH]; intros Hk; [reflexivity | ].
  rewrite firstn_succ_at, rev_app_distr by lia.
  cbn [anchor_loop rev app window_of_scan].
  rewrite <- contains_live.
  destruct (contains L ls (at_ lock_order k)) eqn:Hc.
  - fold (depth L ls). rewrite find_top_index_in_ledger by exact Hc.
    destruct (supports_recursive_lightweight_locking rt); [ | reflexivity].
    rewrite count_repeats_leading by lia.
    destruct (position (at_ lock_order k) (live_entries L ls) + 1
              + leading_repeats (at_ lock_order k) (rev (firstn k lock_order))
              <=? depth L ls); reflexivity.
  - apply IH. lia.
Qed.


Lemma window_of_scan_skip (ls : LockStack) (absent rest : list oop) :
  (forall x, In x absent -> contains L ls x = false) ->
  window_of_scan L rt ls (absent ++ rest) = window_of_scan L rt ls rest.
Proof.
  induction absent as [ | x t IH]; intros H; [reflexivity | ].
  cbn [app window_of_scan].
  rewrite <- contains_live, (H x) by (left; reflexivity).
  apply IH. intros y Hy. apply H. right. exact Hy.
Qed.

Lemma window_of_scan_bound (ls : LockStack) (recent : list oop) (w : Z) :
  window_of_scan L rt ls recent = Ok w -> w <= depth L ls.
Proof.
  induction recent as [ | o older IH]; cbn [window_of_scan].
  - intros H. inversion H. lia.
  - rewrite <- contains_live.
    destruct (contains L ls o) eqn:Hc; [ | exact IH].
    destruct (position_in_ledger ls o Hc) as (Hp & _).
    destruct (supports_recursive_lightweight_locking rt).
    + destruct (position o (live_entries L ls) + 1 + leading_repeats o older
                <=? depth L ls) eqn:E; intros H; inversion H.
      apply Z.leb_le in E. lia.
    + intros H. inversion H. lia.
Qed.

(** C1.  The value of [top_index] at the start of the second loop is the
    anchor window of the specification.  For a leaf frame it is the ledger
    size [n].  Otherwise, when [o] is the first object, scanning the lock
    order backward, that the ledger contains, and [p] is the (lowest) index
    at which the ledger holds [o], the window is [p + 1] without recursion
    support; with it the window is [p + 1] plus the number of entries equal
    to [o] that immediately precede [o] in the lock order, and exceeding [n]
    is a fatal error.  A window that is computed never exceeds [n]. *)
Theorem anchor_window_computed (ls : LockStack) (lock_order : list oop)
                               (leaf_frame : bool) :
  anchor_window L rt ls lock_order leaf_frame
  = spec_window L rt ls lock_order leaf_frame
  /\ (leaf_frame = true ->
      anchor_window L rt ls lock_order leaf_frame = Ok (depth L ls))
  /\ (forall w, anchor_window L rt ls lock_order leaf_frame = Ok w ->
                w <= depth L ls)
  /\ (leaf_frame = false ->
      forall older o newer,
        lock_order = (older ++ o :: newer)%list ->
        (forall x, In x newer -> contains L ls x = false) ->
        contains L ls o = true ->
        let p := position o (live_entries L ls) in
        let repeats := leading_repeats o (rev older) in
        (0 <= p < depth L ls
         /\ base_at ls p = o
         /\ forall j, 0 <= j < p -> base_at ls j <> o)
        /\ anchor_window L rt ls lock_order leaf_frame
           = if supports_recursive_lightweight_locking rt
             then if p + 1 + repeats <=? depth L ls
                  then Ok (p + 1 + repeats)
                  else Fatal "too many obj in lock_order"
             else Ok (p + 1)).
Proof.
  assert (Heq : anchor_window L rt ls lock_order leaf_frame
                = spec_window L rt ls lock_order leaf_frame).
  { unfold anchor_window, spec_window. fold (depth L ls).
    destruct leaf_frame; [reflexivity | ]. cbn [negb].
    rewrite anchor_loop_window by apply le_n.
    rewrite firstn_all. reflexivity. }
  split; [exact Heq | ]. split; [ | split].
  - intros ->. reflexivity.
  - intros w. rewrite Heq. unfold spec_window.
    destruct leaf_frame.
    + intros H. inversion H. lia.
    + apply window_of_scan_bound.
  - intros -> older o newer -> Habsent Hpresent. cbv zeta.
    split; [exact (position_in_ledger ls o Hpresent) | ].
    rewrite Heq. unfold spec_window.
    rewrite rev_app_distr. cbn [rev]. rewrite <- app_assoc.
    rewrite window_of_scan_skip
      by (intros x Hx; apply Habsent, in_rev; exact Hx).
    cbn [app window_of_scan]. rewrite <- contains_live, Hpresent.
    reflexivity.
Qed.

Lemma scan_loop_app_left (ls : LockStack) (leaf_frame : bool)
                         (l1 l2 : list oop) (k : nat) :
  forall w, (k <= List.length l1)%nat ->
    scan_loop L rt ls leaf_frame (l1 ++ l2) k w
    = scan_loop L rt ls leaf_frame l1 k w.
Proof.
  induction k as [ | k IH]; intros w Hk; [reflexivity | ].
  cbn [scan_loop]. rewrite at_app_left by lia.
  destruct (check_entry L rt ls leaf_frame (at_ l1 k) w) as [t | m];
    [ | reflexivity].
  cbn [bind]. apply IH. lia.
Qed.

Lemma scan_loop_app_right (ls : LockStack) (leaf_frame : bool)
                          (l1 l2 : list oop) (j : nat) :
  forall w,
    scan_loop L rt ls leaf_frame (l1 ++ l2) (List.length l1 + j) w
    = (w1 <- scan_loop L rt ls leaf_frame l2 j w ;;
       scan_loop L rt ls leaf_frame (l1 ++ l2) (List.length l1) w1).
Proof.
  induction j as [ | j IH]; intros w.
  - rewrite Nat.add_0_r. reflexivity.
  - rewrite Nat.add_succ_r. cbn [scan_loop]. rewrite at_app_right.
    destruct (check_entry L rt ls leaf_frame (at_ l2 j) w) as [t | m];
      [ | reflexivity].
    cbn [bind]. apply IH.
Qed.

(** The second loop visits the newer part of the lock order first. *)
Lemma scan_app (ls : LockStack) (leaf_frame : bool) (older newer : list oop)
               (w : Z) :
  scan L rt ls leaf_frame (older ++ newer) w
  = (w1 <- scan L rt ls leaf_frame newer w ;;
     scan L rt ls leaf_frame older w1).
Proof.
  unfold scan. rewrite length_app, scan_loop_app_right.
  destruct (scan_loop L rt ls leaf_frame newer (List.length newer) w)
    as [w1 | m]; [ | reflexivity].
  cbn [bind]. apply scan_loop_app_left. apply le_n.
Qed.

Lemma scan_single (ls : LockStack) (leaf_frame : bool) (o : oop) (w : Z) :
  scan L rt ls leaf_frame [o] w = check_entry L rt ls leaf_frame o w.
Proof.
  unfold scan. cbn [List.length scan_loop at_ nth].
  destruct (check_entry L rt ls leaf_frame o w); reflexivity.
Qed.

(** The run of the whole function, cut at the object [o]. *)
Lemma verify_consistent_lock_order_at (ls : LockStack) (leaf_frame : bool)
    (older newer : list oop) (o : oop) (w0 w : Z) :
  anchor_window L rt ls (older ++ o :: newer) leaf_frame = Ok w0 ->
  scan L rt ls leaf_frame newer w0 = Ok w ->
  verify_consistent_lock_order L rt ls (older ++ o :: newer) leaf_frame
  = (w1 <- check_entry L rt ls leaf_frame o w ;;
     scan L rt ls leaf_frame older w1 ;;; Ok tt).
Proof.
  intros Ha Hs. unfold verify_consistent_lock_order. rewrite Ha. cbn [bind].
  fold (scan L rt ls leaf_frame (older ++ o :: newer) w0).
  rewrite scan_app.
  change (o :: newer) with ([o] ++ newer)%list.
  rewrite scan_app, Hs. cbn [bind]. rewrite scan_single.
  destruct (check_entry L rt ls leaf_frame o w); reflexivity.
Qed.

Lemma check_entry_match (ls : LockStack) (leaf_frame : bool) (o : oop)
                        (w : Z) :
  0 < w -> o = base_at ls (w - 1) ->
  check_entry L rt ls leaf_frame o w
  = (assert (is_locked rt o) "must be locked" ;;;
     assert (is_fast_locked rt (mark_acquire rt o)
             || is_owner_anonymous rt (monitor rt (mark_acquire rt o)))
       "must be fast_locked or inflated by other thread" ;;;
     Ok (w - 1)).
Proof.
  intros Hw Ho. unfold check_entry.
  replace (0 <? w) with true by (symmetry; apply Z.ltb_lt; exact Hw).
  replace (o =? base_at ls (w - 1)) with true
    by (symmetry; apply Z.eqb_eq; exact Ho).
  reflexivity.
Qed.

Lemma check_entry_mismatch (ls : LockStack) (leaf_frame : bool) (o : oop)
                           (w : Z) :
  ~ (0 < w /\ o = base_at ls (w - 1)) ->
  check_entry L rt ls leaf_frame o w
  = (assert (is_locked rt o) "must be locked" ;;;
     assert (negb (is_fast_locked rt (mark_acquire rt o)))
       "must be inflated" ;;;
     assert (is_owner rt (monitor rt (mark_acquire rt o)) (get_thread rt)
             || (negb leaf_frame
                 && (current_waiting_monitor rt (get_thread rt)
                     =? monitor rt (mark_acquire rt o))))
       "must be owned by (or waited on by) thread" ;;;
     assert (negb (contains L ls o)) "must not be on lock_stack" ;;;
     Ok w).
Proof.
  intros H. unfold check_entry.
  replace ((0 <? w) && (o =? base_at ls (w - 1))) with false; [reflexivity | ].
  symmetry. apply andb_false_iff.
  destruct (0 <? w) eqn:E1; [ | left; reflexivity].
  destruct (o =? base_at ls (w - 1)) eqn:E2; [ | right; reflexivity].
  exfalso. apply H. apply Z.ltb_lt in E1. apply Z.eqb_eq in E2. auto.
Qed.

(** C2.  In the second loop, let [o] be an object of the lock order reached
    with a non-empty window [w] whose last slot holds [o].  The check of [o]
    passes only if its mark word is fast-locked or its monitor has an
    anonymous owner, and then the window is [w - 1]; for a locked object
    that condition is also enough, and the loop goes on with the older part
    of the lock order and the window [w - 1]. *)
Theorem lock_order_entry_on_ledger (ls : LockStack) (leaf_frame : bool)
    (older newer : list oop) (o : oop) (w0 w : Z) :
  anchor_window L rt ls (older ++ o :: newer) leaf_frame = Ok w0 ->
  scan L rt ls leaf_frame newer w0 = Ok w ->
  0 < w -> o = base_at ls (w - 1) ->
  let mark := mark_acquire rt o in
  let accepted := is_fast_locked rt mark = true
                  \/ is_owner_anonymous rt (monitor rt mark) = true in
  (forall w', check_entry L rt ls leaf_frame o w = Ok w' ->
              accepted /\ w' = w - 1)
  /\ (verify_consistent_lock_order L rt ls (older ++ o :: newer) leaf_frame
      = Ok tt -> accepted)
  /\ (is_locked rt o = true -> accepted ->
      check_entry L rt ls leaf_frame o w = Ok (w - 1)
      /\ verify_consistent_lock_order L rt ls (older ++ o :: newer) leaf_frame
         = (scan L rt ls leaf_frame older (w - 1) ;;; Ok tt)).
Proof.
  intros Ha Hs Hw Ho. cbv zeta.
  pose proof (verify_consistent_lock_order_at ls leaf_frame older newer o
                w0 w Ha Hs) as Hrun.
  pose proof (check_entry_match ls leaf_frame o w Hw Ho) as Hstep.
  assert (Hpass : forall w', check_entry L rt ls leaf_frame o w = Ok w' ->
            (is_fast_locked rt (mark_acquire rt o) = true
             \/ is_owner_anonymous rt (monitor rt (mark_acquire rt o)) = true)
            /\ w' = w - 1).
  { intros w'. rewrite Hstep.
    destruct (is_locked rt o); [ | discriminate]. cbn [assert assert_in bind].
    destruct (is_fast_locked rt (mark_acquire rt o)
              || is_owner_anonymous rt (monitor rt (mark_acquire rt o))) eqn:E;
      [ | discriminate].
    cbn [bind]. intros H. inversion H. apply orb_true_iff in E. auto. }
  split; [exact Hpass | ]. split.
  - rewrite Hrun.
    destruct (check_entry L rt ls leaf_frame o w) as [w' | m] eqn:E;
      [ | discriminate].
    intros _. apply (Hpass w' eq_refl).
  - intros Hlocked Hacc.
    assert (E : check_entry L rt ls leaf_frame o w = Ok (w - 1)).
    { rewrite Hstep, Hlocked. apply orb_true_iff in Hacc. rewrite Hacc.
      reflexivity. }
    split; [exact E | ]. rewrite Hrun, E. reflexivity.
Qed.

(** C3.  In the second loop, let [o] be an object of the lock order reached
    with a window [w] that is empty or whose last slot does not hold [o].
    Unless the mark word of [o] is not fast-locked, its monitor is owned by
    the thread of the ledger or (for a frame that is not the leaf frame
    only) that thread is waiting on it, and no live slot of the ledger holds
    [o], the check fails and with it the whole verification.  For a locked
    object those conditions are also enough; the window stays [w]. *)
Theorem lock_order_entry_off_ledger (ls : LockStack) (leaf_frame : bool)
    (older newer : list oop) (o : oop) (w0 w : Z) :
  anchor_window L rt ls (older ++ o :: newer) leaf_frame = Ok w0 ->
  scan L rt ls leaf_frame newer w0 = Ok w ->
  ~ (0 < w /\ o = base_at ls (w - 1)) ->
  let m := monitor rt (mark_acquire rt o) in
  let inflated_and_held :=
    is_fast_locked rt (mark_acquire rt o) = false
    /\ (is_owner rt m (get_thread rt) = true
        \/ (leaf_frame = false
            /\ current_waiting_monitor rt (get_thread rt) = m))
    /\ (forall i, 0 <= i < depth L ls -> base_at ls i <> o) in
  (~ inflated_and_held ->
   exists msg,
     check_entry L rt ls leaf_frame o w = Fatal msg
     /\ verify_consistent_lock_order L rt ls (older ++ o :: newer) leaf_frame
        = Fatal msg)
  /\ (is_locked rt o = true -> inflated_and_held ->
      check_entry L rt ls leaf_frame o w = Ok w
      /\ verify_consistent_lock_order L rt ls (older ++ o :: newer) leaf_frame
         = (scan L rt ls leaf_frame older w ;;; Ok tt)).
Proof.
  intros Ha Hs Hno. cbv zeta.
  pose proof (verify_consistent_lock_order_at ls leaf_frame older newer o
                w0 w Ha Hs) as Hrun.
  pose proof (check_entry_mismatch ls leaf_frame o w Hno) as Hstep.
  split.
  - intros Hbad.
    assert (Hfatal : exists msg,
               check_entry L rt ls leaf_frame o w = Fatal msg).
    { destruct (check_entry L rt ls leaf_frame o w) as [w' | msg] eqn:E;
        [ | exists msg; reflexivity].
      exfalso. apply Hbad. rewrite Hstep in E.
      destruct (is_locked rt o); [ | discriminate].
      cbn [assert assert_in bind] in E.
      destruct (is_fast_locked rt (mark_acquire rt o)); [discriminate | ].
      cbn [negb bind] in E.
      destruct (is_owner rt (monitor rt (mark_acquire rt o)) (get_thread rt)
                || negb leaf_frame
                   && (current_waiting_monitor rt (get_thread rt)
                       =? monitor rt (mark_acquire rt o))) eqn:Eo;
        [ | discriminate].
      cbn [bind] in E.
      destruct (contains L ls o) eqn:Ec; [discriminate | ].
      split; [reflexivity | ]. split.
      - apply orb_true_iff in Eo. destruct Eo as [Eo | Eo]; [left; exact Eo | ].
        right. apply andb_true_iff in Eo. destruct Eo as [E1 E2].
        apply negb_true_iff in E1. apply Z.eqb_eq in E2. auto.
      - apply contains_false_iff. exact Ec. }
    destruct Hfatal as [msg E]. exists msg. split; [exact E | ].
    rewrite Hrun, E. reflexivity.
  - intros Hlocked (Hfast & Howner & Habsent).
    assert (E : check_entry L rt ls leaf_frame o w = Ok w).
    { rewrite Hstep, Hlocked, Hfast.
      apply contains_false_iff in Habsent. rewrite Habsent.
      replace (is_owner rt (monitor rt (mark_acquire rt o)) (get_thread rt)
               || negb leaf_frame
                  && (current_waiting_monitor rt (get_thread rt)
                      =? monitor rt (mark_acquire rt o))) with true;
        [reflexivity | ].
      symmetry. apply orb_true_iff.
      destruct Howner as [Ho | [Hl Hwait]]; [left; exact Ho | right].
      rewrite Hl, Hwait. apply Z.eqb_refl. }
    split; [exact E | ]. rewrite Hrun, E. reflexivity.
Qed.

End LockOrder.

(** The anchor of a frame that is not the leaf frame: ledger [A, A, B],
    lock order [A, A, C]. *)
Example anchor_window_recursive :
  anchor_window layout64 (demo_runtime true 1) (ledger64 3 [100; 100; 200])
    [100; 100; 300] false = Ok 2.
Proof. reflexivity. Qed.

Example anchor_window_not_recursive :
  anchor_window layout64 (demo_runtime false 1) (ledger64 2 [100; 200])
    [100; 100; 300] false = Ok 1.
Proof. reflexivity. Qed.

Example anchor_window_too_many :
  anchor_window layout64 (demo_runtime true 1) (ledger64 3 [100; 100; 200])
    [100; 100; 100; 100; 300] false = Fatal "too many obj in lock_order".
Proof. reflexivity. Qed.

(** Ledger [A, B], lock order [A, B], leaf frame: [B] is reached with the
    window 2 and lies in its last slot. *)
Lemma lock_order_entry_on_ledger_witness :
  check_entry layout64 (demo_runtime true 1) (ledger64 2 [100; 200]) true
    200 2 = Ok 1
  /\ verify_consistent_lock_order layout64 (demo_runtime true 1)
       (ledger64 2 [100; 200]) [100; 200] true = Ok tt.
Proof.
  destruct (lock_order_entry_on_ledger layout64 (demo_runtime true 1)
              (ledger64 2 [100; 200]) true [100] [] 200 2 2)
    as (_ & _ & H).
  - reflexivity.
  - reflexivity.
  - lia.
  - reflexivity.
  - destruct H as [H1 H2].
    + reflexivity.
    + left. reflexivity.
    + split; [exact H1 | exact H2].
Defined.

(** Ledger [A, B], lock order [A, M, B] with [M] inflated and owned by the
    thread, leaf frame: [M] is reached with the window 1, whose last slot
    holds [A]. *)
Lemma lock_order_entry_off_ledger_witness :
  check_entry layout64 (demo_runtime true 1) (ledger64 2 [100; 200]) true
    102 1 = Ok 1
  /\ verify_consistent_lock_order layout64 (demo_runtime true 1)
       (ledger64 2 [100; 200]) [100; 102; 200] true = Ok tt.
Proof.
  destruct (lock_order_entry_off_ledger layout64 (demo_runtime true 1)
              (ledger64 2 [100; 200]) true [100] [200] 102 2 1)
    as (_ & H).
  - reflexivity.
  - reflexivity.
  - intros [_ H]. discriminate H.
  - destruct H as [H1 H2].
    + reflexivity.
    + split; [reflexivity | ]. split; [left; reflexivity | ].
      intros i Hi.
      assert (Hcases : i = 0 \/ i = 1)
        by (change (depth layout64 (ledger64 2 [100; 200])) with 2 in Hi; lia).
      destruct Hcases as [-> | ->]; discriminate.
    + split; [exact H1 | exact H2].
Defined.

(** * Further properties *)

(** ** Construction and verification *)

Lemma list_set_all_null (l : list oop) (n : nat) :
  Forall (fun x => x = nullptr) l -> list_set l n nullptr = l.
Proof.
  revert n. induction l as [ | h t IH]; intros n H;
    [destruct n; reflexivity | ].
  inversion H as [ | x l' Hh Ht]; subst.
  destruct n as [ | n]; cbn [list_set]; [reflexivity | ].
  rewrite IH by exact Ht. reflexivity.
Qed.

Lemma base_set_all_null (ls : LockStack) (i : Z) :
  Forall (fun x => x = nullptr) (_base ls) -> base_set ls i nullptr = ls.
Proof.
  intros H. unfold base_set. destruct (i <? 0); [reflexivity | ].
  rewrite list_set_all_null by exact H. destruct ls; reflexivity.
Qed.

Lemma repeat_all_null (n : nat) :
  Forall (fun x => x = nullptr) (repeat nullptr n).
Proof. induction n as [ | n IH]; simpl; constructor; auto. Qed.

Section ConstructionFacts.

Variable L : Layout.
Variable rt : Runtime.

Lemma zap_loop_all_null (fuel : nat) :
  forall (ls : LockStack) (i : Z),
    Forall (fun x => x = nullptr) (_base ls) -> zap_loop L fuel ls i = ls.
Proof.
  induction fuel as [ | f IH]; intros ls i H; cbn [zap_loop]; [reflexivity | ].
  destruct (i <? CAPACITY L); [ | reflexivity].
  rewrite base_set_all_null by exact H. apply IH. exact H.
Qed.

Lemma LockStack_init_slot (i : Z) :
  base_at (LockStack_init L) i = nullptr \/ i < 0.
Proof.
  destruct (Z_lt_ge_dec i 0) as [Hneg | Hpos]; [right; exact Hneg | left].
  rewrite base_at_nonneg by lia. cbn [LockStack_init _base].
  apply nth_repeat.
Qed.

Lemma LockStack_ctor_init (dbg : bool) (jt : Z) :
  LockStack_ctor L dbg jt = LockStack_init L.
Proof.
  unfold LockStack_ctor. destruct dbg; [ | reflexivity].
  apply zap_loop_all_null. cbn [LockStack_init _base]. apply repeat_all_null.
Qed.

(** X1.  The loop of the checked build does not change the object that the
    member initialisers leave: [_base()] has already set every slot to
    [nullptr], so checked and product builds construct the same ledger. *)
Theorem ctor_same_in_all_builds (jt : Z) :
  LockStack_ctor L true jt = LockStack_ctor L false jt.
Proof.
  rewrite !LockStack_ctor_init. reflexivity.
Qed.

(** X2.  A ledger that has just been constructed passes [verify], in every
    build and whichever thread verifies it, provided lightweight locking
    is in use and the layout is sound: positive base offset, at least one
    slot of positive size, end offset within [int]. *)
Theorem verify_after_construction (dbg : bool) (jt : Z) (msg : string) :
  0 < lock_stack_base_offset L ->
  0 < CAPACITY L -> 0 < oopSize L ->
  lock_stack_base_offset L + CAPACITY L * oopSize L <= INT_MAX ->
  LockingMode rt = LM_LIGHTWEIGHT rt ->
  verify L rt msg (LockStack_ctor L dbg jt) = Ok tt.
Proof.
  intros Hbase Hcap Hslot Hfit Hmode.
  assert (Hprod : 0 < CAPACITY L * oopSize L)
    by (apply Z.mul_pos_pos; assumption).
  rewrite LockStack_ctor_init. apply verify_ok_iff.
  assert (Hdepth : depth L (LockStack_init L) = 0).
  { unfold depth, to_index. cbn [LockStack_init _top].
    rewrite Z.sub_diag. reflexivity. }
  split; [exact Hmode | ]. split.
  - exists (to_u32 (lock_stack_base_offset L)),
           (to_u32 (lock_stack_base_offset L + CAPACITY L * oopSize L)).
    split; [apply start_offset_positive; exact Hbase | ].
    split; [apply end_offset_positive; lia | ].
    cbn [LockStack_init _top]. rewrite !to_u32_small by lia. lia.
  - intros _. split; [ | split].
    + intros i Hi. rewrite Hdepth in Hi. lia.
    + intros p q Hp Hq. rewrite Hdepth in Hq. lia.
    + intros i Hi. rewrite Hdepth in Hi.
      destruct (LockStack_init_slot i) as [H | H]; [exact H | lia].
Qed.

(** X3.  For a sound layout, the two range asserts of [verify] bound the
    index its loops use: a cursor in [[start_offset, end_offset]] has an
    index in [[0, CAPACITY]], the cursor of slot [i] has index [i], and the
    end offset has index CAPACITY. *)
Theorem index_of_cursor_in_range :
  0 < lock_stack_base_offset L ->
  0 < CAPACITY L -> 0 < oopSize L ->
  lock_stack_base_offset L + CAPACITY L * oopSize L <= INT_MAX ->
  (forall ls, top_in_range L ls -> 0 <= depth L ls <= CAPACITY L)
  /\ (forall ls i,
        _top ls = lock_stack_base_offset L + i * oopSize L ->
        depth L ls = i)
  /\ (forall e, end_offset L true = Ok e -> to_index L e = CAPACITY L).
Proof.
  intros Hbase Hcap Hslot Hfit.
  assert (Hprod : 0 < CAPACITY L * oopSize L)
    by (apply Z.mul_pos_pos; assumption).
  assert (Hs : to_u32 (lock_stack_base_offset L) = lock_stack_base_offset L)
    by (apply to_u32_small; lia).
  split; [ | split].
  - intros ls (s & e & Hstart & Hend & Hrange).
    apply start_offset_checked in Hstart. destruct Hstart as [_ ->].
    apply end_offset_checked in Hend. destruct Hend as [_ ->].
    rewrite Hs in Hrange. rewrite to_u32_small in Hrange by lia.
    unfold depth, to_index. rewrite Hs.
    rewrite Z.quot_div_nonneg by lia. split.
    + apply Z.div_pos; lia.
    + apply Z.div_le_upper_bound; lia.
  - intros ls i Htop. unfold depth, to_index. rewrite Hs, Htop.
    replace (lock_stack_base_offset L + i * oopSize L
             - lock_stack_base_offset L) with (i * oopSize L) by lia.
    apply Z.quot_mul. lia.
  - intros e Hend. apply end_offset_checked in Hend. destruct Hend as [_ ->].
    unfold to_index. rewrite Hs, to_u32_small by lia.
    replace (lock_stack_base_offset L + CAPACITY L * oopSize L
             - lock_stack_base_offset L) with (CAPACITY L * oopSize L) by lia.
    apply Z.quot_mul. lia.
Qed.

End ConstructionFacts.

(** [layout64], lightweight locking, a foreign thread. *)
Lemma verify_after_construction_witness :
  verify layout64 (demo_runtime true 2) "pre-contains"
    (LockStack_ctor layout64 true 1) = Ok tt.
Proof.
  apply (verify_after_construction layout64 (demo_runtime true 2) true 1
           "pre-contains"); simpl; unfold INT_MAX; first [lia | reflexivity].
Defined.

(** In [layout64] a ledger with three entries has its cursor at 1024. *)
Lemma index_of_cursor_in_range_witness :
  depth layout64 (ledger64 3 [100; 100; 200]) = 3.
Proof.
  destruct (index_of_cursor_in_range layout64) as (_ & H & _);
    try (simpl; unfold INT_MAX; lia).
  apply H. reflexivity.
Defined.

(** ** The lock-order cross-check as a whole *)

Lemma leading_repeats_nonneg (o : oop) (l : list oop) :
  0 <= leading_repeats o l.
Proof.
  induction l as [ | x t IH]; cbn [leading_repeats]; [lia | ].
  destruct (x =? o); lia.
Qed.

Lemma slots_between_empty (ls : LockStack) (lo hi : Z) :
  hi <= lo -> slots_between ls lo hi = [].
Proof.
  intros H. unfold slots_between.
  replace (Z.to_nat (hi - lo)) with O by lia. reflexivity.
Qed.

Lemma slots_between_snoc (ls : LockStack) (lo hi : Z) :
  lo <= hi ->
  slots_between ls lo (hi + 1)
  = (slots_between ls lo hi ++ [base_at ls hi])%list.
Proof.
  intros H. unfold slots_between.
  replace (Z.to_nat (hi + 1 - lo)) with (S (Z.to_nat (hi - lo))) by lia.
  rewrite seq_S, map_app. cbn [map Nat.add].
  replace (lo + Z.of_nat (Z.to_nat (hi - lo))) with hi by lia.
  reflexivity.
Qed.

Section LockOrderFacts.

Variable L : Layout.
Variable rt : Runtime.

Lemma contains_empty_ledger (ls : LockStack) (o : oop) :
  depth L ls <= 0 -> contains L ls o = false.
Proof.
  intros H. apply contains_false_iff. intros i Hi. lia.
Qed.

Lemma window_of_scan_lower (ls : LockStack) (recent : list oop) (w : Z) :
  window_of_scan L rt ls recent = Ok w -> 0 <= depth L ls -> 0 <= w.
Proof.
  induction recent as [ | o older IH]; cbn [window_of_scan].
  - intros H Hd. inversion H. lia.
  - rewrite <- contains_live.
    destruct (contains L ls o) eqn:Hc; [ | exact IH].
    destruct (position_in_ledger L ls o Hc) as (Hp & _).
    pose proof (leading_repeats_nonneg o older) as Hr.
    destruct (supports_recursive_lightweight_locking rt).
    + destruct (position o (live_entries L ls) + 1 + leading_repeats o older
                <=? depth L ls); intros H Hd; inversion H. lia.
    + intros H Hd. inversion H. lia.
Qed.

Lemma anchor_window_bounds (ls : LockStack) (lock_order : list oop)
                           (leaf_frame : bool) (w0 : Z) :
  anchor_window L rt ls lock_order leaf_frame = Ok w0 ->
  w0 <= depth L ls /\ (0 <= depth L ls -> 0 <= w0).
Proof.
  unfold anchor_window. fold (depth L ls).
  destruct leaf_frame; cbn [negb].
  - intros H. inversion H. lia.
  - rewrite anchor_loop_window by apply le_n. intros H. split.
    + apply (window_of_scan_bound L rt ls _ w0 H).
    + apply (window_of_scan_lower ls _ w0 H).
Qed.

Lemma anchor_loop_absent (ls : LockStack) (lock_order : list oop) (k : nat)
                         (t : Z) :
  (forall j, (j < k)%nat -> contains L ls (at_ lock_order j) = false) ->
  anchor_loop L rt ls lock_order k t = Ok t.
Proof.
  induction k as [ | k IH]; intros H; [reflexivity | ].
  cbn [anchor_loop]. rewrite (H k) by lia. apply IH.
  intros j Hj. apply H. lia.
Qed.

(** The two ways in which the body of the second loop lets an object pass. *)
Lemma check_entry_ok_cases (ls : LockStack) (leaf_frame : bool) (o : oop)
                           (w w1 : Z) :
  check_entry L rt ls leaf_frame o w = Ok w1 ->
  is_locked rt o = true
  /\ ((0 < w /\ o = base_at ls (w - 1) /\ on_ledger_ok rt o /\ w1 = w - 1)
      \/ (~ (0 < w /\ o = base_at ls (w - 1))
          /\ off_ledger_ok rt leaf_frame o
          /\ contains L ls o = false /\ w1 = w)).
Proof.
  unfold check_entry, on_ledger_ok, off_ledger_ok.
  destruct (is_locked rt o); [ | discriminate].
  cbn [assert assert_in bind].
  destruct ((0 <? w) && (o =? base_at ls (w - 1))) eqn:Em.
  - apply andb_true_iff in Em. destruct Em as [E1 E2].
    apply Z.ltb_lt in E1. apply Z.eqb_eq in E2.
    destruct (is_fast_locked rt (mark_acquire rt o)
              || is_owner_anonymous rt (monitor rt (mark_acquire rt o))) eqn:E;
      [ | discriminate].
    cbn [bind]. intros H. injection H as Hw1. subst w1.
    apply orb_true_iff in E.
    split; [reflexivity | left; auto].
  - assert (Hno : ~ (0 < w /\ o = base_at ls (w - 1))).
    { intros [H1 H2]. apply Z.ltb_lt in H1. apply Z.eqb_eq in H2.
      rewrite H1, H2 in Em. discriminate. }
    destruct (is_fast_locked rt (mark_acquire rt o)); [discriminate | ].
    cbn [negb bind].
    destruct (is_owner rt (monitor rt (mark_acquire rt o)) (get_thread rt)
              || negb leaf_frame
                 && (current_waiting_monitor rt (get_thread rt)
                     =? monitor rt (mark_acquire rt o))) eqn:Eo;
      [ | discriminate].
    cbn [bind].
    destruct (contains L ls o) eqn:Ec; [discriminate | ].
    cbn [negb bind]. intros H. injection H as Hw1. subst w1.
    split; [reflexivity | right].
    split; [exact Hno | ]. split; [ | auto]. split; [reflexivity | ].
    apply orb_true_iff in Eo. destruct Eo as [Eo | Eo]; [left; exact Eo | ].
    right. apply andb_true_iff in Eo. destruct Eo as [E1 E2].
    apply negb_true_iff in E1. apply Z.eqb_eq in E2. auto.
Qed.

(** An object that is not on the ledger passes when it is locked, inflated
    and held; the window is left as it is. *)
Lemma check_entry_off_ledger_ok (ls : LockStack) (leaf_frame : bool)
                                (o : oop) (w : Z) :
  w <= depth L ls -> contains L ls o = false ->
  is_locked rt o = true -> off_ledger_ok rt leaf_frame o ->
  check_entry L rt ls leaf_frame o w = Ok w.
Proof.
  intros Hw Hc Hlocked (Hfast & Howner).
  rewrite check_entry_mismatch.
  - rewrite Hlocked, Hfast, Hc.
    replace (is_owner rt (monitor rt (mark_acquire rt o)) (get_thread rt)
             || negb leaf_frame
                && (current_waiting_monitor rt (get_thread rt)
                    =? monitor rt (mark_acquire rt o))) with true;
      [reflexivity | ].
    symmetry. apply orb_true_iff.
    destruct Howner as [Ho | [Hl Hwait]]; [left; exact Ho | right].
    rewrite Hl, Hwait. apply Z.eqb_refl.
  - intros [H1 H2].
    assert (Hin : contains L ls o = true).
    { apply contains_true_iff. exists (w - 1). split; [lia | auto]. }
    congruence.
Qed.

Lemma scan_loop_bounds (ls : LockStack) (leaf_frame : bool)
                       (lock_order : list oop) (k : nat) :
  forall w w', scan_loop L rt ls leaf_frame lock_order k w = Ok w' ->
    w - Z.of_nat k <= w' <= w /\ (0 <= w -> 0 <= w').
Proof.
  induction k as [ | k IH]; intros w w'; cbn [scan_loop].
  - intros H. inversion H. lia.
  - destruct (check_entry L rt ls leaf_frame (at_ lock_order k) w)
      as [w1 | m] eqn:E; [ | discriminate].
    cbn [bind]. intros H. apply IH in H.
    apply check_entry_ok_cases in E.
    destruct E as (_ & [(H1 & _ & _ & ->) | (_ & _ & _ & ->)]); lia.
Qed.

Lemma scan_loop_classify (ls : LockStack) (leaf_frame : bool)
                         (lock_order : list oop) (k : nat) :
  forall w w', w <= depth L ls ->
    scan_loop L rt ls leaf_frame lock_order k w = Ok w' ->
    forall j, (j < k)%nat ->
      is_locked rt (at_ lock_order j) = true
      /\ ((contains L ls (at_ lock_order j) = true
           /\ on_ledger_ok rt (at_ lock_order j))
          \/ (contains L ls (at_ lock_order j) = false
              /\ off_ledger_ok rt leaf_frame (at_ lock_order j))).
Proof.
  induction k as [ | k IH]; intros w w' Hw; cbn [scan_loop];
    [intros _ j Hj; lia | ].
  destruct (check_entry L rt ls leaf_frame (at_ lock_order k) w)
    as [w1 | m] eqn:E; [ | discriminate].
  cbn [bind]. intros H j Hj.
  apply check_entry_ok_cases in E. destruct E as (Hlocked & Hcase).
  destruct (Nat.eq_dec j k) as [-> | Hne].
  - split; [exact Hlocked | ].
    destruct Hcase as [(H1 & H2 & H3 & _) | (_ & H3 & H4 & _)].
    + left. split; [ | exact H3].
      apply contains_true_iff. exists (w - 1). split; [lia | auto].
    + right. auto.
  - apply (IH w1 w'); [ | exact H | lia].
    destruct Hcase as [(_ & _ & _ & ->) | (_ & _ & _ & ->)]; lia.
Qed.

End LockOrderFacts.

Lemma in_at (l : list oop) (o : oop) :
  In o l -> exists j, (j < List.length l)%nat /\ at_ l j = o.
Proof. intros H. unfold at_. apply In_nth. exact H. Qed.

Lemma at_in (l : list oop) (j : nat) :
  (j < List.length l)%nat -> In (at_ l j) l.
Proof. intros H. unfold at_. apply nth_In. exact H. Qed.

Section LockOrderTheorems.

Variable L : Layout.
Variable rt : Runtime.

Lemma verify_consistent_lock_order_ok (ls : LockStack)
    (lock_order : list oop) (leaf_frame : bool) :
  verify_consistent_lock_order L rt ls lock_order leaf_frame = Ok tt
  <-> exists w0 w',
        anchor_window L rt ls lock_order leaf_frame = Ok w0
        /\ scan L rt ls leaf_frame lock_order w0 = Ok w'.
Proof.
  unfold verify_consistent_lock_order, scan.
  destruct (anchor_window L rt ls lock_order leaf_frame) as [w0 | m];
    cbn [bind].
  - destruct (scan_loop L rt ls leaf_frame lock_order
                (List.length lock_order) w0) as [w' | m] eqn:Es; cbn [bind].
    + split; [intros _; exists w0, w'; auto | reflexivity].
    + split; [discriminate | ].
      intros (a & b & Ha & H). inversion Ha; subst a. congruence.
  - split; [discriminate | intros (a & b & H & _); discriminate].
Qed.

Lemma scan_on_ledger_in_order (ls : LockStack) (leaf_frame : bool)
                              (l : list oop) :
  forall w w', w <= depth L ls ->
    scan L rt ls leaf_frame l w = Ok w' ->
    filter (contains L ls) l = slots_between ls w' w.
Proof.
  induction l as [ | o older IH] using rev_ind; intros w w' Hw.
  - unfold scan. cbn [List.length scan_loop]. intros H. inversion H.
    rewrite slots_between_empty by lia. reflexivity.
  - rewrite scan_app, scan_single.
    destruct (check_entry L rt ls leaf_frame o w) as [w1 | m] eqn:E;
      [ | discriminate].
    cbn [bind]. intros H.
    pose proof (scan_loop_bounds L rt ls leaf_frame older _ _ _ H) as [Hb _].
    apply check_entry_ok_cases in E.
    destruct E as (_ & [(H1 & H2 & _ & ->) | (_ & _ & Hc & ->)]).
    + assert (Hin : contains L ls o = true).
      { apply contains_true_iff. exists (w - 1). split; [lia | auto]. }
      rewrite filter_app. cbn [filter]. rewrite Hin.
      rewrite (IH (w - 1) w') by (auto; lia).
      replace w with (w - 1 + 1) at 2 by lia.
      rewrite slots_between_snoc by lia. rewrite <- H2. reflexivity.
    + rewrite filter_app. cbn [filter]. rewrite Hc, app_nil_r.
      apply IH; auto.
Qed.

Lemma scan_loop_all_off_ledger (ls : LockStack) (leaf_frame : bool)
                               (lock_order : list oop) (k : nat) (w : Z) :
  w <= depth L ls ->
  (forall j, (j < k)%nat ->
     contains L ls (at_ lock_order j) = false
     /\ is_locked rt (at_ lock_order j) = true
     /\ off_ledger_ok rt leaf_frame (at_ lock_order j)) ->
  scan_loop L rt ls leaf_frame lock_order k w = Ok w.
Proof.
  intros Hw. induction k as [ | k IH]; intros H; [reflexivity | ].
  cbn [scan_loop]. destruct (H k) as (Hc & Hl & Ho); [lia | ].
  rewrite check_entry_off_ledger_ok by assumption.
  cbn [bind]. apply IH. intros j Hj. apply H. lia.
Qed.

(** X4.  The window of the second loop never leaves the live part of the
    ledger: at whatever point of the lock order the loop has arrived, the
    window is at most the anchor, which is at most the ledger size [n]; it
    has lost at most one slot per object visited; and it is not negative
    when [n] is not.  So [_base[top_index - 1]] is only read at indices of
    [[0, n)]. *)
Theorem lock_order_window_in_ledger (ls : LockStack) (leaf_frame : bool)
    (older newer : list oop) (w0 w : Z) :
  anchor_window L rt ls (older ++ newer) leaf_frame = Ok w0 ->
  scan L rt ls leaf_frame newer w0 = Ok w ->
  w <= w0 /\ w0 <= depth L ls
  /\ w0 - Z.of_nat (List.length newer) <= w
  /\ (0 <= depth L ls -> 0 <= w).
Proof.
  intros Ha Hs.
  destruct (anchor_window_bounds L rt ls _ _ _ Ha) as [Hup Hlow].
  destruct (scan_loop_bounds L rt ls leaf_frame newer _ _ _ Hs) as [Hb Hpos].
  repeat split; lia.
Qed.

(** X5.  When the cross-check passes, every object of the lock order is
    locked and is of one of two kinds: it is on the ledger and fast-locked
    (or its monitor has an anonymous owner), or it is not on the ledger,
    not fast-locked, and its monitor is owned by the thread of the ledger
    or, for a frame that is not the leaf frame, waited on by it. *)
Theorem lock_order_objects_classified (ls : LockStack)
    (lock_order : list oop) (leaf_frame : bool) :
  verify_consistent_lock_order L rt ls lock_order leaf_frame = Ok tt ->
  forall o, In o lock_order ->
    is_locked rt o = true
    /\ ((contains L ls o = true /\ on_ledger_ok rt o)
        \/ (contains L ls o = false /\ off_ledger_ok rt leaf_frame o)).
Proof.
  intros H o Hin. apply verify_consistent_lock_order_ok in H.
  destruct H as (w0 & w' & Ha & Hs).
  destruct (anchor_window_bounds L rt ls _ _ _ Ha) as [Hup _].
  destruct (in_at lock_order o Hin) as (j & Hj & <-).
  apply (scan_loop_classify L rt ls leaf_frame lock_order
           (List.length lock_order) w0 w' Hup Hs j Hj).
Qed.

(** X6.  When the cross-check passes, the objects of the lock order that
    are on the ledger are, in the order of the lock order, the ledger slots
    from the final window up to the anchor; for a leaf frame these are the
    topmost slots of the ledger. *)
Theorem lock_order_matches_ledger_tail (ls : LockStack)
    (lock_order : list oop) (leaf_frame : bool) :
  verify_consistent_lock_order L rt ls lock_order leaf_frame = Ok tt ->
  exists w0 w',
    anchor_window L rt ls lock_order leaf_frame = Ok w0
    /\ scan L rt ls leaf_frame lock_order w0 = Ok w'
    /\ w' <= w0 <= depth L ls
    /\ (leaf_frame = true -> w0 = depth L ls)
    /\ filter (contains L ls) lock_order = slots_between ls w' w0.
Proof.
  intros H. apply verify_consistent_lock_order_ok in H.
  destruct H as (w0 & w' & Ha & Hs). exists w0, w'.
  destruct (anchor_window_bounds L rt ls _ _ _ Ha) as [Hup _].
  destruct (scan_loop_bounds L rt ls leaf_frame lock_order _ _ _ Hs)
    as [Hb _].
  split; [exact Ha | ]. split; [exact Hs | ]. split; [lia | ]. split.
  - intros ->. unfold anchor_window in Ha. cbn [negb] in Ha.
    inversion Ha. reflexivity.
  - apply (scan_on_ledger_in_order ls leaf_frame lock_order w0 w' Hup Hs).
Qed.

(** X7.  When the ledger is empty, or holds none of the objects of the lock
    order, the cross-check passes exactly when every object of the lock
    order is locked, not fast-locked, and its monitor is owned by the
    thread of the ledger or, for a frame that is not the leaf frame, waited
    on by it. *)
Theorem lock_order_all_off_ledger (ls : LockStack) (lock_order : list oop)
                                  (leaf_frame : bool) :
  depth L ls <= 0
  \/ (forall o, In o lock_order -> contains L ls o = false) ->
  (verify_consistent_lock_order L rt ls lock_order leaf_frame = Ok tt
   <-> forall o, In o lock_order ->
         is_locked rt o = true /\ off_ledger_ok rt leaf_frame o).
Proof.
  intros Hoff.
  assert (Habsent : forall o, In o lock_order -> contains L ls o = false).
  { destruct Hoff as [Hd | Ha]; [ | exact Ha].
    intros o _. apply contains_empty_ledger. exact Hd. }
  split.
  - intros H o Hin. apply verify_consistent_lock_order_ok in H.
    destruct H as (w0 & w' & Ha & Hs).
    destruct (anchor_window_bounds L rt ls _ _ _ Ha) as [Hup _].
    destruct (in_at lock_order o Hin) as (j & Hj & Ho).
    destruct (scan_loop_classify L rt ls leaf_frame lock_order
                (List.length lock_order) w0 w' Hup Hs j Hj)
      as (Hl & [(Hc & _) | (_ & Hok)]); rewrite Ho in *.
    + rewrite (Habsent o Hin) in Hc. discriminate.
    + auto.
  - intros H. apply verify_consistent_lock_order_ok.
    exists (depth L ls), (depth L ls).
    assert (Ha : anchor_window L rt ls lock_order leaf_frame
                 = Ok (depth L ls)).
    { unfold anchor_window. fold (depth L ls).
      destruct leaf_frame; cbn [negb]; [reflexivity | ].
      apply anchor_loop_absent. intros j Hj. apply Habsent, at_in, Hj. }
    split; [exact Ha | ].
    apply scan_loop_all_off_ledger; [lia | ].
    intros j Hj. pose proof (at_in lock_order j Hj) as Hin.
    destruct (H _ Hin) as [Hl Hok]. auto.
Qed.

End LockOrderTheorems.

(** Ledger [A, B], lock order [A, M, B], leaf frame, cut after [A]. *)
Lemma lock_order_window_in_ledger_witness :
  1 <= 2 /\ 2 <= depth layout64 (ledger64 2 [100; 200])
  /\ 2 - Z.of_nat (List.length [102; 200]) <= 1
  /\ (0 <= depth layout64 (ledger64 2 [100; 200]) -> 0 <= 1).
Proof.
  apply (lock_order_window_in_ledger layout64 (demo_runtime true 1)
           (ledger64 2 [100; 200]) true [100] [102; 200] 2 1);
    reflexivity.
Defined.

(** In the same run the inflated object [M] is off the ledger. *)
Lemma lock_order_objects_classified_witness :
  is_locked (demo_runtime true 1) 102 = true
  /\ ((contains layout64 (ledger64 2 [100; 200]) 102 = true
       /\ on_ledger_ok (demo_runtime true 1) 102)
      \/ (contains layout64 (ledger64 2 [100; 200]) 102 = false
          /\ off_ledger_ok (demo_runtime true 1) true 102)).
Proof.
  apply (lock_order_objects_classified layout64 (demo_runtime true 1)
           (ledger64 2 [100; 200]) [100; 102; 200] true).
  - reflexivity.
  - right. left. reflexivity.
Defined.

(** In the same run the objects on the ledger are [A, B], slots 0 and 1. *)
Lemma lock_order_matches_ledger_tail_witness :
  exists w0 w',
    anchor_window layout64 (demo_runtime true 1) (ledger64 2 [100; 200])
      [100; 102; 200] true = Ok w0
    /\ scan layout64 (demo_runtime true 1) (ledger64 2 [100; 200]) true
         [100; 102; 200] w0 = Ok w'
    /\ w' <= w0 <= depth layout64 (ledger64 2 [100; 200])
    /\ (true = true -> w0 = depth layout64 (ledger64 2 [100; 200]))
    /\ filter (contains layout64 (ledger64 2 [100; 200])) [100; 102; 200]
       = slots_between (ledger64 2 [100; 200]) w' w0.
Proof.
  apply (lock_order_matches_ledger_tail layout64 (demo_runtime true 1)
           (ledger64 2 [100; 200]) [100; 102; 200] true).
  reflexivity.
Defined.

(** An empty ledger and the lock order [M]. *)
Lemma lock_order_all_off_ledger_witness :
  verify_consistent_lock_order layout64 (demo_runtime true 1)
    (ledger64 0 []) [102] true = Ok tt
  <-> forall o, In o [102] ->
        is_locked (demo_runtime true 1) o = true
        /\ off_ledger_ok (demo_runtime true 1) true o.
Proof.
  apply (lock_order_all_off_ledger layout64 (demo_runtime true 1)
           (ledger64 0 []) [102] true).
  left. discriminate.
Defined.

(** ** Diagnostics of [verify] *)

Lemma unique_from_fatal (msg : string) (ls : LockStack) (i top : Z)
                        (fuel : nat) :
  forall j m, unique_from fuel msg ls i j top = Fatal m ->
    m = "entries must be unique: " ++ msg.
Proof.
  induction fuel as [ | f IH]; intros j m; cbn [unique_from];
    [discriminate | ].
  destruct (j <? top); [ | discriminate].
  destruct (negb (base_at ls i =? base_at ls j)); cbn [assert assert_in bind].
  - apply IH.
  - intros H. inversion H. reflexivity.
Qed.

Section Diagnostics.

Variable L : Layout.
Variable rt : Runtime.

Lemma verify_live_fatal (msg : string) (ls : LockStack) (top : Z)
                        (fuel : nat) :
  forall i m, verify_live rt fuel msg ls i top = Fatal m ->
    m = "no zapped before top" \/ m = "entries must be unique: " ++ msg.
Proof.
  induction fuel as [ | f IH]; intros i m; cbn [verify_live];
    [discriminate | ].
  destruct (i <? top); [ | discriminate].
  destruct (negb (base_at ls i =? nullptr)); cbn [assert assert_in bind].
  2:{ intros H. inversion H. left. reflexivity. }
  match goal with
  | |- context [unique_from ?f msg ls ?a ?b top] =>
      destruct (unique_from f msg ls a b top) as [[] | m'] eqn:Eu
  end; cbn [bind].
  - apply IH.
  - intros H. inversion H. subst m'. right.
    apply (unique_from_fatal msg ls _ top _ _ _ Eu).
Qed.

Lemma verify_zapped_fatal (ls : LockStack) (fuel : nat) :
  forall i m, verify_zapped L fuel ls i = Fatal m ->
    m = "only zapped entries after top: i: %d, top: %d, entry: %p".
Proof.
  induction fuel as [ | f IH]; intros i m; cbn [verify_zapped];
    [discriminate | ].
  destruct (i <? CAPACITY L); [ | discriminate].
  destruct (base_at ls i =? nullptr); cbn [assert assert_in bind].
  - apply IH.
  - intros H. inversion H. reflexivity.
Qed.

(** X8.  For a sound layout and with lightweight locking in use, [verify]
    aborts with the overflow message exactly when the cursor is above the
    end offset, and with the underflow message exactly when it is below the
    start offset, whichever thread calls it and whatever the slots hold. *)
Theorem verify_cursor_diagnostics (msg : string) (ls : LockStack) :
  0 < lock_stack_base_offset L ->
  0 < CAPACITY L -> 0 < oopSize L ->
  lock_stack_base_offset L + CAPACITY L * oopSize L <= INT_MAX ->
  LockingMode rt = LM_LIGHTWEIGHT rt ->
  (verify L rt msg ls = Fatal "lockstack overflow: _top %d end_offset %d"
   <-> lock_stack_base_offset L + CAPACITY L * oopSize L < _top ls)
  /\ (verify L rt msg ls
      = Fatal "lockstack underflow: _top %d start_offset %d"
      <-> _top ls < lock_stack_base_offset L).
Proof.
  intros Hbase Hcap Hslot Hfit Hmode.
  assert (Hprod : 0 < CAPACITY L * oopSize L)
    by (apply Z.mul_pos_pos; assumption).
  unfold verify. rewrite Hmode, Z.eqb_refl. cbn [assert assert_in bind].
  rewrite end_offset_positive, start_offset_positive by lia.
  rewrite !to_u32_small by lia. cbn [bind].
  destruct (_top ls <=? lock_stack_base_offset L + CAPACITY L * oopSize L)
    eqn:Ee; cbn [bind].
  2:{ apply Z.leb_gt in Ee. split; split; intros H;
        first [reflexivity | discriminate | lia]. }
  apply Z.leb_le in Ee.
  destruct (_top ls >=? lock_stack_base_offset L) eqn:Es; cbn [bind].
  2:{ rewrite Z.geb_leb in Es. apply Z.leb_gt in Es. split; split; intros H;
        first [reflexivity | discriminate | lia]. }
  rewrite Z.geb_leb in Es. apply Z.leb_le in Es.
  assert (Hother : forall m,
    (if may_inspect rt
     then verify_live rt (Z.to_nat (to_index L (_top ls))) msg ls 0
            (to_index L (_top ls)) ;;;
          verify_zapped L (Z.to_nat (CAPACITY L - to_index L (_top ls))) ls
            (to_index L (_top ls))
     else Ok tt) = Fatal m ->
    m = "no zapped before top" \/ m = "entries must be unique: " ++ msg
    \/ m = "only zapped entries after top: i: %d, top: %d, entry: %p").
  { intros m. destruct (may_inspect rt); [ | discriminate].
    destruct (verify_live rt (Z.to_nat (to_index L (_top ls))) msg ls 0
                (to_index L (_top ls))) as [[] | m'] eqn:El; cbn [bind].
    - intros H. apply verify_zapped_fatal in H. auto.
    - intros H. inversion H. subst m'. apply verify_live_fatal in El.
      destruct El; auto. }
  split; split; intros H; try lia; exfalso;
    apply Hother in H; destruct H as [H | [H | H]];
    cbn [append] in H; discriminate H.
Qed.

(** X9.  Without recursive lightweight locking, the live entries of a
    ledger that [verify] accepts (called by the owner or at a safepoint)
    are pairwise distinct. *)
Theorem verified_entries_distinct (msg : string) (ls : LockStack) :
  may_inspect rt = true ->
  supports_recursive_lightweight_locking rt = false ->
  verify L rt msg ls = Ok tt ->
  NoDup (live_entries L ls).
Proof.
  intros Hgate Hnorec H. apply verify_ok_iff in H.
  destruct H as (_ & _ & H). destruct (H Hgate) as (_ & Hu & _).
  apply (NoDup_nth _ nullptr). rewrite live_entries_length.
  assert (Hlt : forall i j : nat,
             (i < j)%nat -> (j < Z.to_nat (depth L ls))%nat ->
             nth i (live_entries L ls) nullptr
             <> nth j (live_entries L ls) nullptr).
  { intros i j Hij Hj Heq. rewrite !live_entries_nth in Heq by lia.
    destruct (Hu (Z.of_nat i) (Z.of_nat j)) as [Hrec _];
      [lia | lia | exact Heq | ].
    congruence. }
  intros i j Hi Hj Heq.
  destruct (Nat.lt_trichotomy i j) as [Hc | [Hc | Hc]]; [ | exact Hc | ].
  - exfalso. apply (Hlt i j Hc Hj Heq).
  - exfalso. apply (Hlt j i Hc Hi). symmetry. exact Heq.
Qed.

End Diagnostics.

(** A cursor one slot above the end offset of [layout64]. *)
Lemma verify_cursor_diagnostics_witness :
  verify layout64 (demo_runtime true 1) "pre-contains" (ledger64 9 [])
  = Fatal "lockstack overflow: _top %d end_offset %d".
Proof.
  apply (verify_cursor_diagnostics layout64 (demo_runtime true 1)
           "pre-contains" (ledger64 9 [])); simpl; unfold INT_MAX;
    first [lia | reflexivity].
Defined.

(** The owner verifies [A, B, C] on a platform without recursion. *)
Lemma verified_entries_distinct_witness :
  NoDup (live_entries layout64 (ledger64 3 [100; 200; 300])).
Proof.
  apply (verified_entries_distinct layout64 (demo_runtime false 1)
           "pre-contains" (ledger64 3 [100; 200; 300])); reflexivity.
Defined.

(** ** Failure of the anchor search *)

Section AnchorFailure.

Variable L : Layout.
Variable rt : Runtime.

Lemma anchor_loop_fatal (ls : LockStack) (lock_order : list oop) (k : nat) :
  forall t m, anchor_loop L rt ls lock_order k t = Fatal m ->
    supports_recursive_lightweight_locking rt = true
    /\ m = "too many obj in lock_order".
Proof.
  induction k as [ | k IH]; intros t m; cbn [anchor_loop]; [discriminate | ].
  destruct (contains L ls (at_ lock_order k)); [ | apply IH].
  destruct (supports_recursive_lightweight_locking rt); [ | discriminate].
  match goal with
  | |- context [assert ?c _] => destruct c
  end; cbn [assert assert_in bind]; [discriminate | ].
  intros H. inversion H. auto.
Qed.

(** X10.  The search for the anchor aborts only for a frame that is not the
    leaf frame, only when recursive lightweight locking is supported, and
    only with the message "too many obj in lock_order"; the whole
    cross-check then aborts with that message, before any object has been
    examined. *)
Theorem anchor_failure (ls : LockStack) (lock_order : list oop)
                       (leaf_frame : bool) (m : string) :
  anchor_window L rt ls lock_order leaf_frame = Fatal m ->
  leaf_frame = false
  /\ supports_recursive_lightweight_locking rt = true
  /\ m = "too many obj in lock_order"
  /\ verify_consistent_lock_order L rt ls lock_order leaf_frame = Fatal m.
Proof.
  intros H.
  assert (Hrun : verify_consistent_lock_order L rt ls lock_order leaf_frame
                 = Fatal m).
  { unfold verify_consistent_lock_order. rewrite H. reflexivity. }
  unfold anchor_window in H. destruct leaf_frame; cbn [negb] in H;
    [discriminate | ].
  apply anchor_loop_fatal in H. destruct H as [Hrec Hm]. auto.
Qed.

End AnchorFailure.

(** Ledger [A, A, B], lock order [A, A, A, A, C], not the leaf frame. *)
Lemma anchor_failure_witness :
  false = false
  /\ supports_recursive_lightweight_locking (demo_runtime true 1) = true
  /\ "too many obj in lock_order" = "too many obj in lock_order"
  /\ verify_consistent_lock_order layout64 (demo_runtime true 1)
       (ledger64 3 [100; 100; 200]) [100; 100; 100; 100; 300] false
     = Fatal "too many obj in lock_order".
Proof.
  apply (anchor_failure layout64 (demo_runtime true 1)
           (ledger64 3 [100; 100; 200]) [100; 100; 100; 100; 300] false).
  reflexivity.
Defined.
